(** * Normalized entity cache of pinia-colada-graphql

    A shallow embedding of [packages/core/src/cache/entity-store.ts] and
    [packages/core/src/cache/normalized-cache.ts]: identity resolution,
    normalization, denormalization with cycle protection, field masking
    and the optimistic layers of the cache store.

    The callers of the cache in [packages/core/src/composables]
    ([use-fragment.ts], [use-graphql-mutation.ts]) follow.

    Modelling conventions.
    - A JavaScript value is a [value]; a plain object is the list of its
      own enumerable properties in the order of their creation, an array
      is a list.  Every object has the prototype [Object.prototype]: an
      assignment to the name [__proto__] creates no property, and the
      prototype it installs when the value assigned is an object is not
      carried by the model, so the properties that look at what an object
      inherits are stated for payloads without a property of that name
      ([no_proto_keys]).  The members of [Object.prototype] are the
      values [VBuiltin]; [in] and the computed reads of masking see them
      ([js_in], [js_get]).  The reads of the names [__typename], [id],
      [_id] and [__ref] find none of them, and a key field of a policy
      that finds one gives the empty key part, as a missing property
      does: these reads go to the own properties ([obj_read]).
    - [Object.entries] lists array-index names first; the model lists
      every name in creation order, which is the order of the engine for
      names that are not array indices, as the names of GraphQL fields
      are.
    - Numbers are the integer-valued ones and [String] prints them in
      decimal, as the engine does for safe integers ([safe_integer]);
      the exponent notation of numbers from 1e21 is not modelled.
    - A [Map<EntityId, StoredEntity>] is a [gmap string obj]; only lookups
      of such maps are observed by the properties below.
    - A [Set<EntityId>] that the code mutates in place is threaded through
      the functions that receive it.
    - The call stack is a natural number: every call of a recursive
      function uses one frame, and running out of frames is the
      [RangeError] the engine throws on deep recursion. *)

From stdpp Require Import gmap strings list fin_maps pretty.

#[local] Set Warnings "-clear-no-such-hyp,-register-all".

(** ** Values *)

Inductive value : Type :=
  | VUndef
  | VNull
  | VBool (b : bool)
  | VNum (n : Z)
  | VStr (s : string)
  | VBuiltin (name : string)
  | VArr (items : list value)
  | VObj (fields : list (string * value)).

(** The own properties of a plain object. *)
Abbreviation obj := (list (string * value)).

(** [Map<EntityId, StoredEntity>] *)
Abbreviation Entities := (gmap string obj).

(** Induction over values that reaches inside arrays and objects. *)
Section value_induction.
Variable P : value → Prop.
Hypothesis Hundef : P VUndef.
Hypothesis Hnull : P VNull.
Hypothesis Hbool : ∀ b, P (VBool b).
Hypothesis Hnum : ∀ n, P (VNum n).
Hypothesis Hstr : ∀ s, P (VStr s).
Hypothesis Hbuiltin : ∀ name, P (VBuiltin name).
Hypothesis Harr : ∀ items, Forall P items → P (VArr items).
Hypothesis Hobj : ∀ fields, Forall (λ kv, P kv.2) fields → P (VObj fields).

Fixpoint value_rect_nested (v : value) : P v :=
  match v with
  | VUndef => Hundef
  | VNull => Hnull
  | VBool b => Hbool b
  | VNum n => Hnum n
  | VStr s => Hstr s
  | VBuiltin name => Hbuiltin name
  | VArr items =>
      Harr items
        ((fix go (l : list value) : Forall P l :=
            match l with
            | [] => Forall_nil_2 P
            | x :: l' => Forall_cons_2 P x l' (value_rect_nested x) (go l')
            end) items)
  | VObj fields =>
      Hobj fields
        ((fix go (l : obj) : Forall (λ kv, P kv.2) l :=
            match l with
            | [] => Forall_nil_2 _
            | kv :: l' =>
                Forall_cons_2 (λ kv, P kv.2) kv l'
                  (value_rect_nested kv.2) (go l')
            end) fields)
  end.
End value_induction.

(** ** Property access on plain objects *)

(** [obj[key]] as an own-property lookup; [None] is a missing property. *)
Fixpoint obj_get (key : string) (o : obj) : option value :=
  match o with
  | [] => None
  | (k, v) :: rest => if decide (k = key) then Some v else obj_get key rest
  end.

(** [obj[key]] as JavaScript reads it: a missing property is [undefined]. *)
Definition obj_read (key : string) (o : obj) : value :=
  default VUndef (obj_get key o).

(** [key in obj] *)
Definition obj_has (key : string) (o : obj) : bool :=
  bool_decide (is_Some (obj_get key o)).

(** [obj[key] = v]: an existing property keeps its position, a new one is
    added last. *)
Fixpoint obj_set (key : string) (v : value) (o : obj) : obj :=
  match o with
  | [] => [(key, v)]
  | (k, w) :: rest =>
      if decide (k = key) then (k, v) :: rest else (k, w) :: obj_set key v rest
  end.

(** [{ ...existing, ...incoming }] *)
Definition spread (existing incoming : obj) : obj :=
  foldl (λ acc kv, obj_set kv.1 kv.2 acc) existing incoming.

(** [const { [key]: _, ...rest } = o] *)
Definition obj_omit (key : string) (o : obj) : obj :=
  filter (λ kv, kv.1 ≠ key) o.

(** [target[key] = v] on an object under construction.  The name
    [__proto__] creates no property: the assignment goes to the setter that
    every plain object inherits, which does nothing for a primitive [v]
    and installs an object or [null] as the prototype of [target].  The
    model has no prototypes; see the conventions above. *)
Definition js_assign (key : string) (v : value) (o : obj) : obj :=
  if decide (key = "__proto__") then o else obj_set key v o.

(** The properties that every plain object inherits from
    [Object.prototype]: the constructor, the methods, and the accessor
    [__proto__], whose getter returns the prototype itself, an object
    without enumerable properties of its own. *)
Definition objectPrototype : obj :=
  [("constructor", VBuiltin "Object");
   ("__defineGetter__", VBuiltin "__defineGetter__");
   ("__defineSetter__", VBuiltin "__defineSetter__");
   ("hasOwnProperty", VBuiltin "hasOwnProperty");
   ("__lookupGetter__", VBuiltin "__lookupGetter__");
   ("__lookupSetter__", VBuiltin "__lookupSetter__");
   ("isPrototypeOf", VBuiltin "isPrototypeOf");
   ("propertyIsEnumerable", VBuiltin "propertyIsEnumerable");
   ("toString", VBuiltin "toString");
   ("valueOf", VBuiltin "valueOf");
   ("__proto__", VObj []);
   ("toLocaleString", VBuiltin "toLocaleString")].

(** The property [key] of a plain object as [in] and a computed read find
    it: an own property, or else an inherited one. *)
Definition js_lookup (key : string) (o : obj) : option value :=
  match obj_get key o with
  | Some v => Some v
  | None => obj_get key objectPrototype
  end.

(** [key in o], for a [key] the code takes from outside. *)
Definition js_in (key : string) (o : obj) : bool :=
  bool_decide (is_Some (js_lookup key o)).

(** [o[key]], for such a [key]. *)
Definition js_get (key : string) (o : obj) : value :=
  default VUndef (js_lookup key o).

(** The object that [for (const [key, val] of Object.entries(obj))
    target[key] = f(val)] builds in an empty [target], given the list of
    the [(key, f(val))]: the keys of [Object.entries] are distinct, so
    each assignment creates its property after the earlier ones, but for
    [__proto__]. *)
Definition assigned (entries : obj) : obj := obj_omit "__proto__" entries.

(** ** Primitive conversions *)

(** Truthiness, as tested by [!x] and [x ? a : b]. *)
Definition truthy (v : value) : bool :=
  match v with
  | VUndef | VNull => false
  | VBool b => b
  | VNum n => bool_decide (n ≠ 0%Z)
  | VStr s => bool_decide (s ≠ "")
  | VBuiltin _ | VArr _ | VObj _ => true
  end.

(** [x == null] *)
Definition nullish (v : value) : bool :=
  match v with
  | VUndef | VNull => true
  | _ => false
  end.

(** [a ?? b] *)
Definition coalesce (a b : value) : value := if nullish a then b else a.

(** [Array.prototype.join] on strings. *)
Fixpoint join (sep : string) (parts : list string) : string :=
  match parts with
  | [] => ""
  | [p] => p
  | p :: rest => p +:+ sep +:+ join sep rest
  end.

(** [String(v)], also the conversion of a template literal and of a
    property key. *)
Fixpoint js_string (v : value) : string :=
  match v with
  | VUndef => "undefined"
  | VNull => "null"
  | VBool true => "true"
  | VBool false => "false"
  | VNum n => pretty n
  | VStr s => s
  | VBuiltin name => "function " +:+ name +:+ "() { [native code] }"
  | VArr items =>
      join "," (map (λ x, if nullish x then "" else js_string x) items)
  | VObj _ => "[object Object]"
  end.

(** ** Type policies ([types.ts]) *)

(** [KeyFieldsFunction]: the result is a string or [null]. *)
Inductive KeyFields : Type :=
  | KeyFieldList (names : list string)
  | KeyFieldsFunction (f : obj → option string).

Record TypePolicy : Type := { keyFields : option KeyFields }.

Abbreviation TypePolicies := (gmap string TypePolicy).

(** ** Identity resolution ([getEntityId]) *)

(** One segment of a field-list identity. *)
Definition keyPart (object : obj) (field : string) : string :=
  match obj_read field object with
  | VUndef | VNull => ""
  | VStr s => s
  | VNum n => pretty n
  | VBool b => js_string (VBool b)
  | _ => ""
  end.

Definition getEntityId (object : obj) (typePolicies : TypePolicies)
    : option string :=
  let typename := obj_read "__typename" object in
  if negb (truthy typename) then None
  else
    let tn := js_string typename in
    match typePolicies !! tn ≫= keyFields with
    | Some (KeyFieldsFunction f) =>
        match f object with
        | Some customKey =>
            if truthy (VStr customKey) then Some (tn +:+ ":" +:+ customKey)
            else None
        | None => None
        end
    | Some (KeyFieldList names) =>
        Some (tn +:+ ":" +:+ join ":" (map (keyPart object) names))
    | None =>
        let id := coalesce (obj_read "id" object) (obj_read "_id" object) in
        match id with
        | VStr s => Some (tn +:+ ":" +:+ s)
        | VNum n => Some (tn +:+ ":" +:+ pretty n)
        | _ => None
        end
    end.

(** [isEntityRef] *)
Definition isEntityRef (v : value) : bool :=
  match v with
  | VObj fields => obj_has "__ref" fields
  | _ => false
  end.

(** [toEntityRef] *)
Definition toEntityRef (entityId : string) : value :=
  VObj [("__ref", VStr entityId)].

(** ** Normalization ([normalize]) *)

(** A loop over a list that threads a state through a callback, as
    [value.map(normalizeValue)] does with the [entities] map it mutates. *)
Definition mapAccum {A B S : Type} (f : A → S → B * S)
    : list A → S → list B * S :=
  fix each (l : list A) (s : S) : list B * S :=
    match l with
    | [] => ([], s)
    | x :: rest =>
        let '(y, s1) := f x s in
        let '(ys, s2) := each rest s1 in
        (y :: ys, s2)
    end.

(** [entities.set(entityId, existing ? { ...existing, ...entity } : entity)] *)
Definition mergeEntity (entityId : string) (entity : obj) (entities : Entities)
    : Entities :=
  match entities !! entityId with
  | Some existing => <[entityId := spread existing entity]> entities
  | None => <[entityId := entity]> entities
  end.

(** The inner [normalizeValue]; [entities] is the map the closure mutates.
    A resolved id is never the empty string ([getEntityId_truthy] below),
    so [if (entityId)] is the test for [Some]. *)
Fixpoint normalizeValue (typePolicies : TypePolicies) (v : value)
    (entities : Entities) {struct v} : value * Entities :=
  match v with
  | VNull | VUndef => (v, entities)
  | VArr items =>
      let '(items', entities') :=
        mapAccum (normalizeValue typePolicies) items entities in
      (VArr items', entities')
  | VObj fields =>
      let entityId := getEntityId fields typePolicies in
      let '(entries, entities') :=
        mapAccum
          (λ (kv : string * value) ents,
             let '(val', ents') := normalizeValue typePolicies kv.2 ents in
             ((kv.1, val'), ents'))
          fields entities in
      let normalizedObj := assigned entries in
      match entityId with
      | Some entityId =>
          (toEntityRef entityId, mergeEntity entityId normalizedObj entities')
      | None => (VObj normalizedObj, entities')
      end
  | _ => (v, entities)
  end.

(** The loop over [Object.entries(obj)] inside [normalizeValue]: the
    normalized entries in order. *)
Definition normalizeEntries (typePolicies : TypePolicies)
    : obj → Entities → obj * Entities :=
  mapAccum
    (λ (kv : string * value) ents,
       let '(val', ents') := normalizeValue typePolicies kv.2 ents in
       ((kv.1, val'), ents')).

(** [normalizedObj] as the loop leaves it. *)
Definition normalizeFields (typePolicies : TypePolicies) (o : obj)
    (entities : Entities) : obj * Entities :=
  let '(entries, entities') := normalizeEntries typePolicies o entities in
  (assigned entries, entities').

Record Normalized : Type := { result : value; norm_entities : Entities }.

Definition normalize (data : value) (typePolicies : TypePolicies) : Normalized :=
  let '(r, ents) := normalizeValue typePolicies data ∅ in
  {| result := r; norm_entities := ents |}.

(** ** Denormalization ([denormalize]) *)

(** A loop over a list whose callback threads a state and may throw. *)
Definition mapAccumM {A B S : Type} (f : A → S → option (B * S))
    : list A → S → option (list B * S) :=
  fix each (l : list A) (s : S) : option (list B * S) :=
    match l with
    | [] => Some ([], s)
    | x :: rest =>
        match f x s with
        | None => None
        | Some (y, s1) =>
            match each rest s1 with
            | None => None
            | Some (ys, s2) => Some (y :: ys, s2)
            end
        end
    end.

(** [denormalize(result, entities, visited)] with [stack] frames left.
    [None] is the [RangeError] of an exhausted call stack; otherwise the
    value returned and the [visited] set as the call leaves it. *)
Fixpoint denormalize (stack : nat) (result : value) (entities : Entities)
    (visited : gset string) {struct stack} : option (value * gset string) :=
  match stack with
  | 0 => None
  | S stack' =>
      match result with
      | VNull | VUndef => Some (result, visited)
      | VArr items =>
          match
            mapAccumM (λ item vis, denormalize stack' item entities vis)
              items visited
          with
          | Some (items', visited') => Some (VArr items', visited')
          | None => None
          end
      | VObj fields =>
          if obj_has "__ref" fields then
            match obj_read "__ref" fields with
            | VStr entityId =>
                if decide (entityId ∈ visited) then
                  Some (toEntityRef entityId, visited)
                else
                  match entities !! entityId with
                  | None => Some (VUndef, visited)
                  | Some entity =>
                      match
                        denormalize stack' (VObj entity) entities
                          ({[entityId]} ∪ visited)
                      with
                      | Some (denormalized, visited') =>
                          Some (denormalized, visited' ∖ {[entityId]})
                      | None => None
                      end
                  end
            | _ => Some (VUndef, visited)
            end
          else
            match
              mapAccumM
                (λ (kv : string * value) vis,
                   match denormalize stack' kv.2 entities vis with
                   | Some (val', vis') => Some ((kv.1, val'), vis')
                   | None => None
                   end)
                fields visited
            with
            | Some (entries, visited') =>
                let denormalizedObj := assigned entries in
                Some (VObj denormalizedObj, visited')
            | None => None
            end
      | _ => Some (result, visited)
      end
  end.

Definition payload_self : value :=
  VObj [("__typename", VStr "User"); ("id", VNum 1);
        ("friend", VObj [("__typename", VStr "User"); ("id", VNum 1);
                         ("name", VStr "x")])].

(** ** Fragment field sets ([getFragmentFields]) *)

(** The part of a GraphQL document the cache inspects. *)
Inductive Selection : Type :=
  | Field (alias : option string) (name : string)
  | FragmentSpread (name : string)
  | InlineFragment.

Inductive DefinitionNode : Type :=
  | FragmentDefinition (name : string) (selections : list Selection)
  | OperationDefinition (selections : list Selection).

(** [DocumentNode.definitions] *)
Abbreviation DocumentNode := (list DefinitionNode).

(** [Set.prototype.add] on a [Set<string>] kept in insertion order. *)
Definition set_add (x : string) (s : list string) : list string :=
  if decide (x ∈ s) then s else s ++ [x].

Definition extractFieldsFromSelectionSet (selections : list Selection)
    (fields : list string) : list string :=
  foldl
    (λ fields selection,
       match selection with
       | Field alias name => set_add (default name alias) fields
       | _ => fields
       end)
    fields selections.

(** [fragment.definitions.find(def => def.kind === "FragmentDefinition")] *)
Fixpoint findFragmentDef (definitions : DocumentNode)
    : option (list Selection) :=
  match definitions with
  | [] => None
  | FragmentDefinition _ selections :: _ => Some selections
  | OperationDefinition _ :: rest => findFragmentDef rest
  end.

Definition getFragmentFields (fragment : DocumentNode) : list string :=
  match findFragmentDef fragment with
  | None => []
  | Some selections =>
      set_add "__typename" (extractFieldsFromSelectionSet selections [])
  end.

(** ** Field masking ([denormalizeWithMask]) *)

(** The treatment of one entity reference met by [denormalizeWithMask]:
    the referenced entity is denormalized in full against a copy of
    [visited]; [visited] itself gets the id added and deleted again. *)
Definition maskRef (stack : nat) (ref : value) (entities : Entities)
    (visited : gset string) : option (value * gset string) :=
  match ref with
  | VObj fields =>
      match obj_read "__ref" fields with
      | VStr entityId =>
          match entities !! entityId with
          | Some refEntity =>
              if decide (entityId ∈ visited) then Some (ref, visited)
              else
                let visited1 := {[entityId]} ∪ visited in
                match denormalize stack (VObj refEntity) entities visited1 with
                | Some (denormalized, _) =>
                    Some (denormalized, visited1 ∖ {[entityId]})
                | None => None
                end
          | None => Some (ref, visited)
          end
      | _ => Some (ref, visited)
      end
  | _ => Some (ref, visited)
  end.

(** The value stored under one declared field. *)
Definition maskField (stack : nat) (v : value) (entities : Entities)
    (visited : gset string) : option (value * gset string) :=
  if isEntityRef v then maskRef stack v entities visited
  else
    match v with
    | VArr items =>
        match
          mapAccumM
            (λ item vis,
               if isEntityRef item then maskRef stack item entities vis
               else Some (item, vis))
            items visited
        with
        | Some (items', visited') => Some (VArr items', visited')
        | None => None
        end
    | _ => Some (v, visited)
    end.

(** [denormalizeWithMask(entity, entities, fragmentFields, visited)];
    [fragmentFields] is the field set in iteration order. *)
Fixpoint maskLoop (stack : nat) (entity : obj) (entities : Entities)
    (fragmentFields : list string) (res : obj) (visited : gset string)
    : option (obj * gset string) :=
  match fragmentFields with
  | [] => Some (res, visited)
  | fieldName :: rest =>
      if negb (js_in fieldName entity) then
        maskLoop stack entity entities rest res visited
      else
        let v := js_get fieldName entity in
        match maskField stack v entities visited with
        | Some (v', visited') =>
            maskLoop stack entity entities rest (js_assign fieldName v' res)
              visited'
        | None => None
        end
  end.

Definition denormalizeWithMask (stack : nat) (entity : obj)
    (entities : Entities) (fragmentFields : list string)
    (visited : gset string) : option value :=
  match maskLoop stack entity entities fragmentFields [] visited with
  | Some (res, _) => Some (VObj res)
  | None => None
  end.

(** ** The cache store ([useNormalizedCache]) *)

Module OptimisticLayer.
Record t : Type := mk { id : string; entities : Entities }.
End OptimisticLayer.

(** The state the store closes over. *)
Record Cache : Type := {
  entities : Entities;
  optimisticLayers : list OptimisticLayer.t;
  typePolicies : TypePolicies;
}.

Definition emptyCache (policies : TypePolicies) : Cache :=
  {| entities := ∅; optimisticLayers := []; typePolicies := policies |}.

Definition setTypePolicies (policies : TypePolicies) (c : Cache) : Cache :=
  {| entities := entities c; optimisticLayers := optimisticLayers c;
     typePolicies := policies |}.

(** [for (const [id, entity] of incoming) { ... merged.set(id, ...) }] *)
Definition mergeEntities (incoming base : Entities) : Entities :=
  map_fold mergeEntity base incoming.

Definition getEntities (c : Cache) : Entities :=
  match optimisticLayers c with
  | [] => entities c
  | layers =>
      foldl (λ merged layer, mergeEntities (OptimisticLayer.entities layer) merged)
        (entities c) layers
  end.

Definition write (data : value) (c : Cache) : Cache :=
  let newEntities := norm_entities (normalize data (typePolicies c)) in
  {| entities := mergeEntities newEntities (entities c);
     optimisticLayers := optimisticLayers c;
     typePolicies := typePolicies c |}.

(** What a call can complete with: a returned value or a thrown error. *)
Inductive completion : Type :=
  | Return (v : value)
  | Throw.

(** [try { return denormalize(rootResult, getEntities()) } catch { return null }];
    the default [visited] is a fresh empty set. *)
Definition read (stack : nat) (rootResult : value) (c : Cache) : completion :=
  let body :=
    let allEntities := getEntities c in
    match denormalize stack rootResult allEntities ∅ with
    | Some (v, _) => Return v
    | None => Throw
    end in
  match body with
  | Return v => Return v
  | Throw => Return VNull
  end.

(** The [id] argument of the fragment operations:
    [EntityId | { __typename, id }]. *)
Inductive IdArg : Type :=
  | IdString (s : string)
  | IdObject (o : obj).

(** [typeof id === "string" ? id : getEntityId(id, typePolicies)], followed
    by the test [if (!entityId)]. *)
Definition resolveId (arg : IdArg) (c : Cache) : option string :=
  match arg with
  | IdString s => if truthy (VStr s) then Some s else None
  | IdObject o => getEntityId o (typePolicies c)
  end.

Definition readFragment (stack : nat) (arg : IdArg)
    (fragment : option DocumentNode) (c : Cache) : option value :=
  match resolveId arg c with
  | None => Some VNull
  | Some entityId =>
      let allEntities := getEntities c in
      match allEntities !! entityId with
      | None => Some VNull
      | Some entity =>
          match fragment with
          | Some doc =>
              denormalizeWithMask stack entity allEntities
                (getFragmentFields doc) ∅
          | None =>
              match denormalize stack (VObj entity) allEntities ∅ with
              | Some (v, _) => Some v
              | None => None
              end
          end
      end
  end.

Definition writeFragment (arg : IdArg) (data : obj) (c : Cache) : Cache :=
  match resolveId arg c with
  | None => c
  | Some entityId =>
      {| entities := mergeEntity entityId data (entities c);
         optimisticLayers := optimisticLayers c;
         typePolicies := typePolicies c |}
  end.

(** [evict(id, fieldName?)]: the new state and the boolean returned. *)
Definition evict (arg : IdArg) (fieldName : option string) (c : Cache)
    : Cache * bool :=
  match resolveId arg c with
  | None => (c, false)
  | Some entityId =>
      match entities c !! entityId with
      | None => (c, false)
      | Some entity =>
          let updatedEntities :=
            match fieldName with
            | Some f =>
                if truthy (VStr f) then
                  <[entityId := obj_omit f entity]> (entities c)
                else delete entityId (entities c)
            | None => delete entityId (entities c)
            end in
          ({| entities := updatedEntities;
              optimisticLayers := optimisticLayers c;
              typePolicies := typePolicies c |}, true)
      end
  end.

Definition clear (c : Cache) : Cache :=
  {| entities := ∅; optimisticLayers := []; typePolicies := typePolicies c |}.

Definition addOptimisticLayer (layerId : string) (data : value) (c : Cache)
    : Cache :=
  let newEntities := norm_entities (normalize data (typePolicies c)) in
  {| entities := entities c;
     optimisticLayers :=
       optimisticLayers c ++ [OptimisticLayer.mk layerId newEntities];
     typePolicies := typePolicies c |}.

Definition removeOptimisticLayer (layerId : string) (c : Cache) : Cache :=
  {| entities := entities c;
     optimisticLayers :=
       filter (λ layer, OptimisticLayer.id layer ≠ layerId) (optimisticLayers c);
     typePolicies := typePolicies c |}.



(** * Notions the properties are stated with *)

(** ** Objects and identities *)

Definition keys (o : obj) : list string := o.*1.

(** A well-formed object has each property name once. *)
Definition wf_obj (o : obj) : Prop := NoDup (keys o).

(** The policy consulted for an object: [typePolicies?.[typename]?.keyFields]. *)
Definition policyOf (object : obj) (typePolicies : TypePolicies)
    : option KeyFields :=
  typePolicies !! js_string (obj_read "__typename" object) ≫= keyFields.

(** The format the specification gives for a field-list identity:
    [typename:v1:v2:...], each segment appended after a colon. *)
Definition colonSeparated (typename : string) (segments : list string) : string :=
  foldl (λ acc segment, acc +:+ ":" +:+ segment) typename segments.

Definition productPolicies : TypePolicies :=
  {[ "Product" := {| keyFields := Some (KeyFieldList ["sku"; "warehouse"]) |} ]}.

Definition productX : obj :=
  [("__typename", VStr "Product"); ("sku", VStr "X"); ("warehouse", VStr "W1")].





Definition plainAddress : obj :=
  [("__typename", VStr "Address"); ("street", VStr "Main")].

(** ** Normalization *)

(** A predicate on every object inside a value, the value included. *)
Fixpoint all_objects (P : obj → bool) (v : value) : bool :=
  match v with
  | VArr items => forallb (all_objects P) items
  | VObj fields => P fields && forallb (λ kv, all_objects P kv.2) fields
  | _ => true
  end.

(** Every object of the value has each property name once. *)
Definition wf_value : value → bool :=
  all_objects (λ o, bool_decide (wf_obj o)).

(** No object of the value has a [__ref] property. *)
Definition no_refs : value → bool :=
  all_objects (λ o, negb (obj_has "__ref" o)).

(** No object of the value has a property named [__proto__]. *)
Definition no_proto_keys : value → bool :=
  all_objects (λ o, negb (obj_has "__proto__" o)).

(** No object of the value has a resolvable identity. *)
Definition no_raw_entity (tp : TypePolicies) : value → bool :=
  all_objects (λ o, bool_decide (getEntityId o tp = None)).

(** The shape of a normalized value: entities become references, the
    rest keeps its structure. *)
Inductive norm_rel (tp : TypePolicies) : value → value → Prop :=
  | norm_rel_undef : norm_rel tp VUndef VUndef
  | norm_rel_null : norm_rel tp VNull VNull
  | norm_rel_bool b : norm_rel tp (VBool b) (VBool b)
  | norm_rel_num n : norm_rel tp (VNum n) (VNum n)
  | norm_rel_str s : norm_rel tp (VStr s) (VStr s)
  | norm_rel_builtin name : norm_rel tp (VBuiltin name) (VBuiltin name)
  | norm_rel_arr items items' :
      Forall2 (norm_rel tp) items items' →
      norm_rel tp (VArr items) (VArr items')
  | norm_rel_entity fields entityId :
      getEntityId fields tp = Some entityId →
      norm_rel tp (VObj fields) (toEntityRef entityId)
  | norm_rel_embedded fields fields' :
      getEntityId fields tp = None →
      Forall2 (λ kv kv', kv.1 = kv'.1 ∧ norm_rel tp kv.2 kv'.2)
        (assigned fields) fields' →
      norm_rel tp (VObj fields) (VObj fields').

(** An object and its normalized property list. *)
Definition fields_rel (tp : TypePolicies) (o o' : obj) : Prop :=
  Forall2 (λ kv kv', kv.1 = kv'.1 ∧ norm_rel tp kv.2 kv'.2) (assigned o) o'.

(** A property of every record of an entity map. *)
Definition store_all (Pr : obj → Prop) (E : Entities) : Prop :=
  ∀ entityId record, E !! entityId = Some record → Pr record.

Definition userNameA : value :=
  VObj [("__typename", VStr "User"); ("id", VStr "1"); ("name", VStr "A")].

Definition userEmail : value :=
  VObj [("__typename", VStr "User"); ("id", VStr "1"); ("email", VStr "a@x")].

(** ** Optimistic layers *)

(** One step of the composition loop of [getEntities]. *)
Definition mergeLayer (merged : Entities) (layer : OptimisticLayer.t) : Entities :=
  mergeEntities (OptimisticLayer.entities layer) merged.

Definition userNamed (name : string) : value :=
  VObj [("__typename", VStr "User"); ("id", VStr "1"); ("name", VStr name)].

Definition twoLayers : Cache :=
  addOptimisticLayer "optimistic-2" (userNamed "B")
    (addOptimisticLayer "optimistic-1" (userNamed "A") (emptyCache ∅)).

(** ** Termination of denormalization, and masking *)

(** The nesting depth of a value. *)
Fixpoint height (v : value) : nat :=
  match v with
  | VArr items => S (max_list (map height items))
  | VObj fields => S (max_list (map (λ kv, height kv.2) fields))
  | _ => 1
  end.

(** The deepest record of an entity map. *)
Definition maxRecordHeight (E : Entities) : nat :=
  max_list ((λ p, height (VObj p.2)) <$> map_to_list E).

(** A recursion depth that [denormalize] cannot exceed: the value at hand,
    then one record for every entity not yet on the path. *)
Definition stackBound (E : Entities) (visited : gset string) (v : value) : nat :=
  height v + size (dom E ∖ visited) * S (maxRecordHeight E).

Definition entityObj (typename : string) (fields : obj) : value :=
  VObj (("__typename", VStr typename) :: ("id", VNum 1) :: fields).

(** Entity [A:1] refers to [B:1], which refers back to [A:1]. *)
Definition cyclicPayload : value :=
  entityObj "A" [("b", entityObj "B" [("a", entityObj "A" [])])].

Definition cyclicStore : Entities := norm_entities (normalize cyclicPayload ∅).

(** [A:1] reaches [D:1] through [B:1] and through [C:1]. *)
Definition diamondPayload : value :=
  entityObj "A"
    [("b", entityObj "B" [("d", entityObj "D" [("x", VNum 7)])]);
     ("c", entityObj "C" [("d", entityObj "D" [("x", VNum 7)])])].

Definition diamondStore : Entities := norm_entities (normalize diamondPayload ∅).

(** The deepest stack a record of the map needs, whatever is visited. *)
Definition recordBound (E : Entities) : nat :=
  S (size E) * S (maxRecordHeight E).

Definition userCardFragment : DocumentNode :=
  [FragmentDefinition "UserCard_user" [Field None "name"; Field None "email"]].

Definition user1 : obj :=
  [("__typename", VStr "User"); ("id", VStr "1"); ("name", VStr "A");
   ("email", VStr "e"); ("phone", VStr "555")].

Definition user1Store : Entities := {[ "User:1" := user1 ]}.

Definition user1Masked : obj :=
  [("name", VStr "A"); ("email", VStr "e"); ("__typename", VStr "User")].

(** ** The shape of stored records *)

(** Two values that agree on everything but the contents of the objects
    inside them. *)
Inductive prim_eq : value → value → Prop :=
  | prim_eq_undef : prim_eq VUndef VUndef
  | prim_eq_null : prim_eq VNull VNull
  | prim_eq_bool b : prim_eq (VBool b) (VBool b)
  | prim_eq_num n : prim_eq (VNum n) (VNum n)
  | prim_eq_str s : prim_eq (VStr s) (VStr s)
  | prim_eq_builtin name : prim_eq (VBuiltin name) (VBuiltin name)
  | prim_eq_arr items items' :
      Forall2 prim_eq items items' → prim_eq (VArr items) (VArr items')
  | prim_eq_obj fields fields' : prim_eq (VObj fields) (VObj fields').

Definition fields_prim_eq (o o' : obj) : Prop :=
  Forall2 (λ kv kv', kv.1 = kv'.1 ∧ prim_eq kv.2 kv'.2) o o'.

(** Custom key functions that do not look inside nested objects: they
    give the same key for two objects whose properties agree up to the
    contents of nested objects. *)
Definition key_functions_shallow (tp : TypePolicies) : Prop :=
  ∀ typename policy f,
    tp !! typename = Some policy →
    keyFields policy = Some (KeyFieldsFunction f) →
    ∀ o o', fields_prim_eq o o' → f o = f o'.

(** Every field value of the record is free of raw entities. *)
Definition clean_record (tp : TypePolicies) (record : obj) : Prop :=
  Forall (λ kv, no_raw_entity tp kv.2 = true) record.

(** The shape invariant of the store. *)
Definition store_clean (tp : TypePolicies) (E : Entities) : Prop :=
  store_all (clean_record tp) E.

(** The write operations of the public surface. *)
Inductive WriteOp : Type :=
  | OpWrite (data : value)
  | OpWriteFragment (id : IdArg) (data : obj)
  | OpEvict (id : IdArg) (fieldName : option string)
  | OpClear.

Definition applyOp (op : WriteOp) (c : Cache) : Cache :=
  match op with
  | OpWrite data => write data c
  | OpWriteFragment id data => writeFragment id data c
  | OpEvict id fieldName => (evict id fieldName c).1
  | OpClear => clear c
  end.

(** The states the store reaches from the empty cache by operations that
    satisfy [allowed]. *)
Inductive reachable (allowed : WriteOp → Prop) (tp : TypePolicies)
    : Cache → Prop :=
  | reachable_empty : reachable allowed tp (emptyCache tp)
  | reachable_step c op :
      reachable allowed tp c → allowed op →
      reachable allowed tp (applyOp op c).

Definition anyOp (op : WriteOp) : Prop := True.

(** Operations whose data goes through [normalize] and has no property
    named [__proto__], or holds no object with a resolvable identity when
    it is stored as it is. *)
Definition normalizedOp (tp : TypePolicies) (op : WriteOp) : Prop :=
  match op with
  | OpWrite data => no_proto_keys data = true
  | OpWriteFragment _ data => clean_record tp data
  | _ => True
  end.

Definition rawFriend : obj :=
  [("friend", VObj [("__typename", VStr "User"); ("id", VStr "2")])].

(** A custom key function that looks inside a nested object can tell an
    object from its normalized form, and then an object kept inline
    resolves once it is stored. *)
Definition deepKeyPolicies : TypePolicies :=
  {[ "T" := {| keyFields := Some (KeyFieldsFunction
       (λ o, if isEntityRef (obj_read "child" o) then Some "x" else None)) |} ]}.

(** ** Round trip *)




(** The ids of the entity objects of a payload, in traversal order. *)
Fixpoint entityIds (tp : TypePolicies) (v : value) : list string :=
  match v with
  | VArr items => concat (map (entityIds tp) items)
  | VObj fields =>
      match getEntityId fields tp with
      | Some entityId =>
          entityId :: concat (map (λ kv, entityIds tp kv.2) fields)
      | None => concat (map (λ kv, entityIds tp kv.2) fields)
      end
  | _ => []
  end.


(** One entity met twice with different fields: both places show the
    merged record. *)
Definition userTwice : value := VArr [userNameA; userEmail].

Definition userMerged : value :=
  VObj [("__typename", VStr "User"); ("id", VStr "1"); ("name", VStr "A");
        ("email", VStr "a@x")].


(** ** More of the entity store, the cache and its callers *)

(** [isEntity] ([entity-store.ts]) *)
Definition isEntity (v : value) : bool :=
  match v with
  | VObj object =>
      match obj_read "__typename" object with
      | VStr _ =>
          negb (nullish (obj_read "id" object)) ||
          negb (nullish (obj_read "_id" object))
      | _ => false
      end
  | _ => false
  end.

(** Every object of the value that has a [__ref] property has a string
    there that names a record of [D]. *)
Definition ref_ok (D : gset string) (o : obj) : bool :=
  if obj_has "__ref" o then
    match obj_read "__ref" o with
    | VStr entityId => bool_decide (entityId ∈ D)
    | _ => false
    end
  else true.

Definition refs_closed (D : gset string) : value → bool :=
  all_objects (ref_ok D).

(** A record that is no reference and whose references are closed. *)
Definition record_closed (D : gset string) (record : obj) : Prop :=
  obj_has "__ref" record = false ∧
  Forall (λ kv, refs_closed D kv.2 = true) record.

(** A colon occurs in [s]. *)
Fixpoint has_colon (s : string) : bool :=
  match s with
  | EmptyString => false
  | String a rest => bool_decide (String a EmptyString = ":") || has_colon rest
  end.

(** [Number.isSafeInteger], for the numbers among the values: these are
    the numbers [String] prints digit by digit. *)
Definition safe_integer (v : value) : bool :=
  match v with
  | VNum n => bool_decide (Z.abs n ≤ 9007199254740991)%Z
  | _ => true
  end.

(** The type name and the identity the default policy reads. *)
Definition typenameOf (object : obj) : string :=
  js_string (obj_read "__typename" object).

Definition defaultIdentity (object : obj) : value :=
  coalesce (obj_read "id" object) (obj_read "_id" object).

(** ** Reading a fragment from a component ([composables/use-fragment.ts]) *)

(** What the getter of the computed value completes with: a value, an
    [Error] with its message, or the [RangeError] of an exhausted stack. *)
Inductive outcome : Type :=
  | Returned (v : value)
  | ThrownError (message : string)
  | ThrownRangeError.

(** The double quote of the error messages. *)
Definition dquote : string := String (Ascii.ascii_of_nat 34) EmptyString.

Fixpoint getFragmentName (document : DocumentNode) : string :=
  match document with
  | [] => "UnknownFragment"
  | FragmentDefinition name _ :: _ => name
  | OperationDefinition _ :: rest => getFragmentName rest
  end.

(** [ref.key], as the destructuring [const { __typename, id } = ref] reads
    it. *)
Definition prop (key : string) (v : value) : value :=
  match v with
  | VObj o => obj_read key o
  | _ => VUndef
  end.

(** The entity id [useFragment] builds: [`${__typename}:${id}`]. *)
Definition fragmentEntityId (ref : value) : string :=
  js_string (prop "__typename" ref) +:+ ":" +:+ js_string (prop "id" ref).

(** The getter that [useFragment] hands to [computed], run against the
    state [c] of the cache. *)
Definition useFragment (stack : nat) (fragmentDoc : DocumentNode)
    (fragmentRef : value) (throwOnMissing : bool) (c : Cache) : outcome :=
  let fragmentName := getFragmentName fragmentDoc in
  let ref := fragmentRef in
  if negb (truthy ref) then Returned VNull
  else
    let __typename := prop "__typename" ref in
    let id := prop "id" ref in
    if negb (truthy __typename) then
      if throwOnMissing then
        ThrownError ("[pinia-colada-graphql] Fragment " +:+ dquote +:+
                     fragmentName +:+ dquote +:+ " is missing __typename")
      else Returned VNull
    else if nullish id then
      if throwOnMissing then
        ThrownError ("[pinia-colada-graphql] Fragment " +:+ dquote +:+
                     fragmentName +:+ dquote +:+ " is missing id")
      else Returned VNull
    else
      let entityId := js_string __typename +:+ ":" +:+ js_string id in
      match readFragment stack (IdString entityId) (Some fragmentDoc) c with
      | None => ThrownRangeError
      | Some entity =>
          if negb (truthy entity) && throwOnMissing then
            ThrownError ("[pinia-colada-graphql] Entity not found for fragment "
                         +:+ dquote +:+ fragmentName +:+ dquote +:+ ": " +:+
                         entityId)
          else Returned entity
      end.

(** [isFragmentRef] *)
Definition isFragmentRef (v : value) : bool :=
  match v with
  | VObj o =>
      obj_has "__typename" o && obj_has "id" o &&
      match obj_read "__typename" o with
      | VStr _ => true
      | _ => false
      end
  | _ => false
  end.

(** ** Optimistic mutations ([composables/use-graphql-mutation.ts]) *)

(** The state the mutation hooks work on: the module-level counter of
    layer handles and the cache.  The hooks are modelled as they run when
    the options give no callbacks of the user. *)
Record MutationState : Type := {
  optimisticIdCounter : Z;
  cache : Cache;
}.

(** [optimisticResponse]: a response, or a function of the variables. *)
Inductive OptimisticResponse : Type :=
  | StaticResponse (response : value)
  | ComputedResponse (f : value → value).

(** The handle of the [n]-th layer: [`optimistic-${n}`]. *)
Definition layerHandle (n : Z) : string := "optimistic-" +:+ pretty n.

(** [onMutate]: the [layerId] of the returned context and the new state. *)
Definition onMutate (optimisticResponse : option OptimisticResponse)
    (variables : value) (st : MutationState) : option string * MutationState :=
  let given :=
    match optimisticResponse with
    | Some (StaticResponse response) => truthy response
    | Some (ComputedResponse _) => true
    | None => false
    end in
  if given then
    let response :=
      match optimisticResponse with
      | Some (ComputedResponse f) => f variables
      | Some (StaticResponse response) => response
      | None => VUndef
      end in
    let counter := (optimisticIdCounter st + 1)%Z in
    let layerId := layerHandle counter in
    (Some layerId,
     {| optimisticIdCounter := counter;
        cache := addOptimisticLayer layerId response (cache st) |})
  else (None, st).

(** [if (ctx?.layerId) cache.removeOptimisticLayer(ctx.layerId)], the cache
    step that [onSuccess] and [onError] share. *)
Definition removeContextLayer (layerId : option string) (st : MutationState)
    : MutationState :=
  match layerId with
  | Some layerId =>
      if truthy (VStr layerId) then
        {| optimisticIdCounter := optimisticIdCounter st;
           cache := removeOptimisticLayer layerId (cache st) |}
      else st
  | None => st
  end.

Definition onSuccess (layerId : option string) (st : MutationState)
    : MutationState :=
  removeContextLayer layerId st.

Definition onError (layerId : option string) (st : MutationState)
    : MutationState :=
  removeContextLayer layerId st.

(** The response of [client.execute]: [data] is [VUndef] when absent,
    [errors] holds the messages. *)
Module GraphQLResponse.
Record t : Type := mk { data : value; errors : option (list string) }.
End GraphQLResponse.

(** The [mutation] function once the response is there: the error thrown,
    or the value returned and the new state. *)
Definition mutation (useCache : bool) (transform : option (value → value))
    (response : GraphQLResponse.t) (st : MutationState)
    : string + value * MutationState :=
  match GraphQLResponse.errors response with
  | Some (e :: es) => inl ("GraphQL Error: " +:+ join ", " (e :: es))
  | _ =>
      match GraphQLResponse.data response with
      | VUndef => inl "No data returned from GraphQL mutation"
      | data =>
          let st' :=
            if useCache then
              {| optimisticIdCounter := optimisticIdCounter st;
                 cache := write data (cache st) |}
            else st in
          inr (match transform with
               | Some f => f data
               | None => data
               end, st')
      end
  end.

(** Every layer of the cache carries a handle the counter has issued. *)
Definition layers_issued (st : MutationState) : Prop :=
  Forall (λ layer, ∃ n, (n ≤ optimisticIdCounter st)%Z ∧
                        OptimisticLayer.id layer = layerHandle n)
    (optimisticLayers (cache st)).

(** ** Example data of the further properties *)

Definition addressBook : value :=
  VObj [("addresses", VArr [VObj plainAddress; VNull; VNum 3])].


Definition userNumericId : obj := [("__typename", VStr "User"); ("id", VNum 12)].
Definition userStringId : obj :=
  [("__typename", VStr "User"); ("_id", VStr "12"); ("name", VStr "A")].

Definition idleMutations : MutationState :=
  {| optimisticIdCounter := 0; cache := write userNameA (emptyCache ∅) |}.

Definition serverResponse : GraphQLResponse.t :=
  GraphQLResponse.mk (userNamed "C") None.

Definition emailFirstFragment : DocumentNode :=
  [OperationDefinition [Field None "id"];
   FragmentDefinition "Contact_user"
     [Field None "email"; Field (Some "label") "name"; Field None "name";
      FragmentSpread "Other"; Field None "email"]].

(** A payload with a property named [__proto__], as
    [JSON.parse('{"name":"A","__proto__":5}')] returns it. *)
Definition protoPayload : value :=
  VObj [("name", VStr "A"); ("__proto__", VNum 5)].

(** A fragment that selects a field named like an inherited property. *)
Definition constructorFragment : DocumentNode :=
  [FragmentDefinition "Card_user" [Field None "name"; Field None "constructor"]].

(** The output names of the fields among the selections, in selection
    order. *)
Definition outputNames (selections : list Selection) : list string :=
  omap (λ selection,
          match selection with
          | Field alias name => Some (default name alias)
          | _ => None
          end) selections.

(** The names of a list in the order of their first occurrence, each
    once. *)
Fixpoint firstOccurrences (names : list string) : list string :=
  match names with
  | [] => []
  | x :: rest => x :: filter (λ y, y ≠ x) (firstOccurrences rest)
  end.

(** The name starts with a decimal digit, as every array index does. *)
Definition starts_with_digit (s : string) : bool :=
  match s with
  | String c _ =>
      bool_decide (48 ≤ Ascii.nat_of_ascii c ∧ Ascii.nat_of_ascii c ≤ 57)
  | EmptyString => false
  end.

(** * Properties *)

(** ** First evaluations *)

Example getEntityId_default :
  getEntityId [("__typename", VStr "User"); ("id", VNum 1)] ∅ = Some "User:1".
Proof. vm_compute. reflexivity. Qed.

Example normalize_self :
  let n := normalize payload_self ∅ in
  denormalize 10 (result n) (norm_entities n) ∅ =
  Some (VObj [("__typename", VStr "User"); ("id", VNum 1); ("name", VStr "x");
              ("friend", VObj [("__ref", VStr "User:1")])], ∅).
Proof. vm_compute. reflexivity. Qed.

(** ** Objects *)

Lemma obj_get_Some_elem k v (o : obj) : obj_get k o = Some v → (k, v) ∈ o.
Proof.
  induction o as [|[k' w] o IH]; simpl; [done|].
  case_decide; [intros [= ->]; subst; left | right; auto].
Qed.

Lemma keys_cons k v (o : obj) : keys ((k, v) :: o) = k :: keys o.
Proof. done. Qed.

Lemma obj_get_is_Some k (o : obj) : is_Some (obj_get k o) ↔ k ∈ keys o.
Proof.
  induction o as [|[k' w] o IH]; simpl.
  - split; [intros [? [=]] | inversion 1].
  - case_decide; subst.
    + split; [left | eauto].
    + rewrite IH, elem_of_cons. naive_solver.
Qed.

Lemma obj_get_None k (o : obj) : obj_get k o = None ↔ k ∉ keys o.
Proof. rewrite <- obj_get_is_Some, eq_None_not_Some. done. Qed.


Lemma obj_get_set k k' v (o : obj) :
  obj_get k (obj_set k' v o) = if decide (k' = k) then Some v else obj_get k o.
Proof.
  induction o as [|[k0 w] o IH]; simpl.
  - done.
  - destruct (decide (k0 = k')) as [->|Hne]; simpl.
    + repeat case_decide; congruence.
    + rewrite IH. repeat case_decide; congruence.
Qed.

Lemma keys_obj_set k v (o : obj) :
  keys (obj_set k v o) = if decide (k ∈ keys o) then keys o else keys o ++ [k].
Proof.
  induction o as [|[k0 w] o IH]; [done|]. cbn [obj_set].
  destruct (decide (k0 = k)) as [->|Hne]; rewrite !keys_cons.
  - rewrite decide_True; [done | left].
  - rewrite IH. destruct (decide (k ∈ keys o)).
    + rewrite decide_True; [done | by right].
    + rewrite decide_False; [done|]. rewrite elem_of_cons. naive_solver.
Qed.

Lemma wf_obj_set k v (o : obj) : wf_obj o → wf_obj (obj_set k v o).
Proof.
  unfold wf_obj. rewrite keys_obj_set. case_decide as Hk; [done|].
  intros Hnd. apply NoDup_app. split; [done|]. split; [|apply NoDup_singleton].
  intros x Hx Hx'. apply list_elem_of_singleton in Hx'. by subst.
Qed.

Lemma wf_spread (a b : obj) : wf_obj a → wf_obj (spread a b).
Proof.
  unfold spread. revert a. induction b as [|[k v] b IH]; simpl; [done|].
  intros a Ha. apply IH. by apply wf_obj_set.
Qed.

(** Reading a field of [{ ...a, ...b }]: the field of [b] if it has one,
    else the field of [a]. *)
Lemma obj_get_spread k (a b : obj) :
  wf_obj b →
  obj_get k (spread a b) =
  match obj_get k b with Some v => Some v | None => obj_get k a end.
Proof.
  unfold spread, wf_obj, keys. revert a.
  induction b as [|[k0 v0] b IH]; simpl; [done|].
  intros a [Hk Hnd]%NoDup_cons. rewrite IH by done.
  destruct (decide (k0 = k)) as [->|Hne].
  - assert (obj_get k b = None) as -> by by apply obj_get_None.
    rewrite obj_get_set. by rewrite decide_True.
  - destruct (obj_get k b); [done|]. rewrite obj_get_set.
    by rewrite decide_False.
Qed.

(** The values of [{ ...a, ...b }] come from [a] or [b]. *)
Lemma Forall_obj_set (P : string * value → Prop) k v (o : obj) :
  P (k, v) → Forall P o → Forall P (obj_set k v o).
Proof.
  intros Hv. induction 1 as [|[k0 w] o Hx Ho IH]; simpl.
  - by constructor.
  - case_decide; subst; constructor; auto.
Qed.

Lemma Forall_spread (P : string * value → Prop) (a b : obj) :
  Forall P a → Forall P b → Forall P (spread a b).
Proof.
  unfold spread. intros Ha Hb. revert a Ha.
  induction Hb as [|[k v] b Hx Hb IH]; simpl; [done|].
  intros a Ha. apply IH. by apply Forall_obj_set.
Qed.

Lemma Forall_obj_omit (P : string * value → Prop) k (o : obj) :
  Forall P o → Forall P (obj_omit k o).
Proof.
  unfold obj_omit. rewrite !Forall_forall. intros Ho x Hx.
  apply list_elem_of_filter in Hx. apply Ho, Hx.
Qed.

Lemma keys_spread k (a b : obj) :
  k ∈ keys (spread a b) ↔ k ∈ keys a ∨ k ∈ keys b.
Proof.
  unfold spread. revert a. induction b as [|[k0 v0] b IH]; intros a; simpl.
  - rewrite elem_of_nil. naive_solver.
  - rewrite IH, keys_obj_set, elem_of_cons.
    case_decide as Hk0; [naive_solver|].
    rewrite elem_of_app, list_elem_of_singleton. naive_solver.
Qed.

Lemma obj_has_spread key (a b : obj) :
  obj_has key (spread a b) = obj_has key a || obj_has key b.
Proof.
  unfold obj_has. apply eq_true_iff_eq.
  rewrite orb_true_iff, !bool_decide_eq_true, !obj_get_is_Some.
  apply keys_spread.
Qed.

(** ** Entity maps *)

Lemma mergeEntity_lookup id entity (E : Entities) id' :
  mergeEntity id entity E !! id' =
  if decide (id = id') then
    Some (match E !! id with Some existing => spread existing entity
                           | None => entity end)
  else E !! id'.
Proof.
  unfold mergeEntity. destruct (E !! id) eqn:HE; rewrite lookup_insert;
    by case_decide.
Qed.

(** The merge loop of [write] and [getEntities], read one id at a time. *)
Lemma mergeEntities_lookup (incoming base : Entities) id :
  mergeEntities incoming base !! id =
  match incoming !! id with
  | Some entity =>
      Some (match base !! id with Some existing => spread existing entity
                                | None => entity end)
  | None => base !! id
  end.
Proof.
  unfold mergeEntities. revert id.
  apply (map_fold_weak_ind (λ (r : Entities) (m : Entities), ∀ id,
    r !! id = match m !! id with
              | Some entity =>
                  Some (match base !! id with
                        | Some existing => spread existing entity
                        | None => entity end)
              | None => base !! id
              end)).
  - intros id. by rewrite lookup_empty.
  - intros i x m r Hi IH id. rewrite mergeEntity_lookup.
    rewrite lookup_insert. case_decide; subst.
    + by rewrite IH, Hi.
    + apply IH.
Qed.


(** ** Identity resolution *)

Lemma string_app_assoc (s1 s2 s3 : string) :
  s1 +:+ (s2 +:+ s3) = (s1 +:+ s2) +:+ s3.
Proof.
  induction s1 as [|a s1 IH]; [reflexivity|].
  change (String a (s1 +:+ (s2 +:+ s3)) = String a ((s1 +:+ s2) +:+ s3)).
  by rewrite IH.
Qed.

Lemma string_app_nonempty (s1 s2 : string) : s2 ≠ "" → s1 +:+ s2 ≠ "".
Proof. destruct s1; [done | discriminate]. Qed.

(** A resolved id is a truthy string, so [if (entityId)] only tests for
    [null]. *)
Lemma getEntityId_truthy object tp entityId :
  getEntityId object tp = Some entityId → truthy (VStr entityId) = true.
Proof.
  unfold getEntityId. intros H.
  assert (∀ tn rest, entityId = tn +:+ ":" +:+ rest →
            truthy (VStr entityId) = true) as Hne.
  { intros tn rest ->. apply bool_decide_eq_true.
    apply string_app_nonempty. discriminate. }
  destruct (negb _); [done|].
  destruct (_ ≫= keyFields) as [[names|f]|].
  - injection H as <-. eauto.
  - destruct (f object) as [ck|]; [|done].
    destruct (truthy (VStr ck)); [|done]. injection H as <-. eauto.
  - destruct (coalesce _ _); try done; injection H as <-; eauto.
Qed.

Lemma colonSeparated_join typename segments :
  segments ≠ [] →
  typename +:+ ":" +:+ join ":" segments = colonSeparated typename segments.
Proof.
  unfold colonSeparated. revert typename.
  induction segments as [|s rest IH]; [done|]. intros typename _.
  destruct rest as [|s' rest]; [done|].
  change (join ":" (s :: s' :: rest)) with (s +:+ ":" +:+ join ":" (s' :: rest)).
  transitivity (foldl (λ acc segment, acc +:+ ":" +:+ segment)
                  (typename +:+ ":" +:+ s) (s' :: rest)); [|reflexivity].
  rewrite <- (IH (typename +:+ ":" +:+ s)) by done.
  by rewrite !string_app_assoc.
Qed.

(** C9. With a type discriminator and a field-list policy [f1, ..., fn],
    the resolver yields the discriminator followed by the stringified
    values of the listed fields in order, each after a colon; a missing,
    null or non-primitive value gives an empty segment. *)
Theorem getEntityId_field_list object tp names :
  truthy (obj_read "__typename" object) = true →
  policyOf object tp = Some (KeyFieldList names) →
  getEntityId object tp =
    Some (js_string (obj_read "__typename" object) +:+ ":" +:+
          join ":" (map (keyPart object) names)) ∧
  (names ≠ [] →
   getEntityId object tp =
     Some (colonSeparated (js_string (obj_read "__typename" object))
             (map (keyPart object) names))) ∧
  (∀ field, field ∈ names →
     keyPart object field =
       match obj_get field object with
       | Some (VStr s) => s
       | Some (VNum n) => pretty n
       | Some (VBool true) => "true"
       | Some (VBool false) => "false"
       | _ => ""
       end).
Proof.
  intros Htn Hpol.
  assert (getEntityId object tp =
    Some (js_string (obj_read "__typename" object) +:+ ":" +:+
          join ":" (map (keyPart object) names))) as Hid.
  { unfold getEntityId. unfold policyOf in Hpol. by rewrite Htn, Hpol. }
  split_and!; [done | |].
  - intros Hne. rewrite Hid. f_equal. apply colonSeparated_join.
    by destruct names.
  - intros field _. unfold keyPart, obj_read.
    destruct (obj_get field object) as [[| | [|] | | | | |]|]; done.
Qed.

Lemma getEntityId_field_list_witness :
  truthy (obj_read "__typename" productX) = true ∧
  policyOf productX productPolicies = Some (KeyFieldList ["sku"; "warehouse"]) ∧
  getEntityId productX productPolicies = Some "Product:X:W1".
Proof.
  split_and!; [reflexivity | reflexivity |].
  destruct (getEntityId_field_list productX productPolicies ["sku"; "warehouse"])
    as (_ & H & _); [reflexivity | reflexivity |].
  rewrite H by discriminate. reflexivity.
Defined.

Lemma normalizeValue_obj tp fields E :
  normalizeValue tp (VObj fields) E =
  let '(normalizedObj, E') := normalizeFields tp fields E in
  match getEntityId fields tp with
  | Some entityId => (toEntityRef entityId, mergeEntity entityId normalizedObj E')
  | None => (VObj normalizedObj, E')
  end.
Proof.
  unfold normalizeFields, normalizeEntries. cbn [normalizeValue].
  by destruct (mapAccum _ fields E).
Qed.

Lemma normalizeValue_arr tp items E :
  normalizeValue tp (VArr items) E =
  let '(items', E') := mapAccum (normalizeValue tp) items E in
  (VArr items', E').
Proof. reflexivity. Qed.




(** ** Normalization *)

Lemma all_objects_arr P items :
  all_objects P (VArr items) = true ↔ Forall (λ x, all_objects P x = true) items.
Proof.
  simpl. rewrite forallb_forall, Forall_forall.
  by setoid_rewrite list_elem_of_In.
Qed.

Lemma all_objects_obj P fields :
  all_objects P (VObj fields) = true ↔
  P fields = true ∧ Forall (λ kv, all_objects P kv.2 = true) fields.
Proof.
  simpl. rewrite andb_true_iff, forallb_forall, Forall_forall.
  by setoid_rewrite list_elem_of_In.
Qed.

(** What the loops compute, element by element. [I] is an invariant of the
    threaded state and [R] relates each element to its image. *)
Lemma mapAccum_spec {A B S : Type} (f : A → S → B * S)
    (I : S → Prop) (R : A → B → S → Prop) (l : list A) :
  (∀ x y s s', R x y s → I s → I s' → R x y s') →
  Forall (λ x, ∀ s y s', I s → f x s = (y, s') → (I s → I s') ∧ R x y s') l →
  ∀ s ys s', I s → mapAccum f l s = (ys, s') →
    I s' ∧ Forall2 (λ x y, R x y s') l ys.
Proof.
  intros Hmono. induction 1 as [|x l Hx Hl IH]; intros s ys s' Hs; simpl.
  - intros [= <- <-]. by split.
  - destruct (f x s) as [y s1] eqn:Hf.
    destruct (mapAccum f l s1) as [ys' s2] eqn:Hrest.
    intros [= <- <-]. destruct (Hx _ _ _ Hs Hf) as [Hs1 Hy].
    specialize (Hs1 Hs).
    destruct (IH _ _ _ Hs1 Hrest) as [Hs2 Hys].
    split; [done|]. constructor; [|done]. by eapply Hmono.
Qed.

Lemma Forall2_keys {A B : Type} (R : A → B → Prop)
    (o : list (string * A)) (o' : list (string * B)) :
  Forall2 (λ kv kv', kv.1 = kv'.1 ∧ R kv.2 kv'.2) o o' → o'.*1 = o.*1.
Proof.
  induction 1 as [|[k v] [k' v'] o o' [Hk _] _ IH]; [done|].
  rewrite !fmap_cons. simpl in *. by rewrite IH, Hk.
Qed.

Lemma fields_rel_keys tp o o' : fields_rel tp o o' → keys o' = keys (assigned o).
Proof. apply Forall2_keys. Qed.

(** The assignments drop the entries of [__proto__] on both sides. *)
Lemma Forall2_assigned (R : value → value → Prop) (o entries : obj) :
  Forall2 (λ kv kv', kv.1 = kv'.1 ∧ R kv.2 kv'.2) o entries →
  Forall2 (λ kv kv', kv.1 = kv'.1 ∧ R kv.2 kv'.2) (assigned o) (assigned entries).
Proof.
  unfold assigned, obj_omit.
  induction 1 as [|[k v] [k' v'] o o' [Hk Hv] _ IH]; [constructor|].
  simpl in Hk. subst k'. rewrite !filter_cons. simpl.
  case_decide; [constructor|]; done.
Qed.

Lemma assigned_cons k v (o : obj) :
  assigned ((k, v) :: o) =
  if decide (k = "__proto__") then assigned o else (k, v) :: assigned o.
Proof.
  unfold assigned, obj_omit. rewrite filter_cons. simpl.
  destruct (decide (k = "__proto__")) as [->|Hne].
  - by rewrite decide_False by (by intros ?).
  - by rewrite decide_True.
Qed.

Lemma elem_of_assigned kv (o : obj) :
  kv ∈ assigned o ↔ kv ∈ o ∧ kv.1 ≠ "__proto__".
Proof. unfold assigned, obj_omit. rewrite list_elem_of_filter. tauto. Qed.

Lemma keys_assigned k (o : obj) :
  k ∈ keys (assigned o) ↔ k ∈ keys o ∧ k ≠ "__proto__".
Proof.
  unfold keys. rewrite !list_elem_of_fmap. split.
  - intros ([k' v] & -> & [Hin Hne]%elem_of_assigned). split; [eauto|done].
  - intros [([k' v] & -> & Hin) Hne]. exists (k', v). split; [done|].
    by apply elem_of_assigned.
Qed.

Lemma assigned_id (o : obj) : obj_has "__proto__" o = false → assigned o = o.
Proof.
  intros Hno. apply bool_decide_eq_false in Hno.
  rewrite obj_get_is_Some in Hno. unfold assigned, obj_omit.
  induction o as [|[k v] o IH]; [done|]. rewrite keys_cons in Hno.
  apply not_elem_of_cons in Hno as [Hk Ho].
  rewrite filter_cons. simpl. rewrite decide_True by done. by rewrite IH.
Qed.

Lemma obj_has_assigned k (o : obj) :
  obj_has k (assigned o) = obj_has k o && bool_decide (k ≠ "__proto__").
Proof.
  unfold obj_has. apply eq_true_iff_eq.
  rewrite andb_true_iff, !bool_decide_eq_true, !obj_get_is_Some.
  apply keys_assigned.
Qed.

Lemma wf_assigned (o : obj) : wf_obj o → wf_obj (assigned o).
Proof.
  unfold wf_obj, keys, assigned, obj_omit. intros Hnd.
  induction o as [|[k v] o IH]; [done|]. rewrite fmap_cons in Hnd.
  apply NoDup_cons in Hnd as [Hk Hnd]. rewrite filter_cons. simpl.
  case_decide; [|by apply IH]. rewrite fmap_cons. apply NoDup_cons.
  split; [|by apply IH]. simpl. intros Hin. apply Hk.
  apply list_elem_of_fmap in Hin as ([k' v'] & -> & Hin%list_elem_of_filter).
  apply list_elem_of_fmap. exists (k', v'). tauto.
Qed.

Lemma Forall_assigned (P : string * value → Prop) (o : obj) :
  Forall P o → Forall P (assigned o).
Proof. apply Forall_obj_omit. Qed.

Lemma obj_has_keys key (o o' : obj) :
  keys o' = keys o → obj_has key o' = obj_has key o.
Proof.
  intros Hkeys. unfold obj_has. apply bool_decide_ext.
  by rewrite !obj_get_is_Some, Hkeys.
Qed.

Section normalize_shape.
Context (tp : TypePolicies).

Lemma normalizeFields_entries (o : obj) E :
  normalizeFields tp o E =
  (assigned (normalizeEntries tp o E).1, (normalizeEntries tp o E).2).
Proof. unfold normalizeFields. by destruct (normalizeEntries tp o E). Qed.

Lemma normalizeEntries_cons k v (o : obj) E :
  normalizeEntries tp ((k, v) :: o) E =
  let '(v', E1) := normalizeValue tp v E in
  let '(o', E2) := normalizeEntries tp o E1 in
  ((k, v') :: o', E2).
Proof.
  unfold normalizeEntries. simpl. by destruct (normalizeValue tp v E).
Qed.

Lemma normalizeFields_cons k v (o : obj) E :
  normalizeFields tp ((k, v) :: o) E =
  let '(v', E1) := normalizeValue tp v E in
  let '(o', E2) := normalizeFields tp o E1 in
  (if decide (k = "__proto__") then o' else (k, v') :: o', E2).
Proof.
  rewrite !normalizeFields_entries, normalizeEntries_cons.
  destruct (normalizeValue tp v E) as [v' E1].
  rewrite normalizeFields_entries.
  destruct (normalizeEntries tp o E1) as [o' E2]. simpl.
  by rewrite assigned_cons.
Qed.

(** The properties of an object are normalized one by one. *)
Lemma normalizeEntries_spec (I : Entities → Prop)
    (R : value → value → Entities → Prop) (o : obj) :
  (∀ x y s s', R x y s → I s → I s' → R x y s') →
  Forall (λ kv, ∀ s y s', I s → normalizeValue tp kv.2 s = (y, s') →
                 (I s → I s') ∧ R kv.2 y s') o →
  ∀ s o' s', I s → normalizeEntries tp o s = (o', s') →
    I s' ∧ Forall2 (λ kv kv', kv.1 = kv'.1 ∧ R kv.2 kv'.2 s') o o'.
Proof.
  intros Hmono Ho. unfold normalizeEntries.
  apply (mapAccum_spec _ I (λ kv kv' s, kv.1 = kv'.1 ∧ R kv.2 kv'.2 s)).
  - intros x y s s' [? ?] ? ?. eauto.
  - eapply Forall_impl; [exact Ho|]. intros [k v] Hkv s [k' y] s' Hs. simpl.
    destruct (normalizeValue tp v s) as [v' s1] eqn:Hn. intros [= <- <- <-].
    destruct (Hkv _ _ _ Hs Hn). auto.
Qed.

Lemma normalizeEntries_keys (o : obj) E o' E' :
  normalizeEntries tp o E = (o', E') → keys o' = keys o.
Proof.
  intros Hm.
  eapply (Forall2_keys (λ _ _ : value, True)),
    (normalizeEntries_spec (λ _, True) (λ _ _ _, True));
    [done | | done | exact Hm].
  by apply Forall_forall.
Qed.

(** Without a property named [__proto__] every entry is assigned. *)
Lemma normalizeFields_plain (o : obj) E :
  obj_has "__proto__" o = false →
  normalizeFields tp o E = normalizeEntries tp o E.
Proof.
  intros Hown. rewrite normalizeFields_entries.
  destruct (normalizeEntries tp o E) as [o' E'] eqn:Hm. simpl.
  rewrite assigned_id; [done|].
  by rewrite (obj_has_keys _ _ _ (normalizeEntries_keys _ _ _ _ Hm)).
Qed.

Lemma normalizeFields_spec (I : Entities → Prop)
    (R : value → value → Entities → Prop) (o : obj) :
  (∀ x y s s', R x y s → I s → I s' → R x y s') →
  Forall (λ kv, ∀ s y s', I s → normalizeValue tp kv.2 s = (y, s') →
                 (I s → I s') ∧ R kv.2 y s') o →
  ∀ s o' s', I s → normalizeFields tp o s = (o', s') →
    I s' ∧ Forall2 (λ kv kv', kv.1 = kv'.1 ∧ R kv.2 kv'.2 s') (assigned o) o'.
Proof.
  intros Hmono Ho s o' s' Hs. rewrite normalizeFields_entries.
  destruct (normalizeEntries tp o s) as [entries s1] eqn:Hm.
  intros [= <- <-].
  destruct (normalizeEntries_spec I R o Hmono Ho _ _ _ Hs Hm) as [Hs1 Hrel].
  split; [done|].
  by apply (Forall2_assigned (λ x y, R x y s1)).
Qed.

Lemma normalizeValue_shape v :
  ∀ E v' E', normalizeValue tp v E = (v', E') → norm_rel tp v v'.
Proof.
  induction v as [| | | | | |items IH|fields IH] using value_rect_nested;
    intros E v' E'; try (intros [= <- <-]; constructor).
  - rewrite normalizeValue_arr.
    destruct (mapAccum _ items E) as [items' E1] eqn:Hm. intros [= <- <-].
    constructor.
    eapply (mapAccum_spec _ (λ _, True) (λ x y _, norm_rel tp x y));
      [done | | done | exact Hm].
    eapply Forall_impl; [exact IH|]. simpl. eauto.
  - rewrite normalizeValue_obj.
    destruct (normalizeFields tp fields E) as [o' E1] eqn:Hm.
    destruct (getEntityId fields tp) as [entityId|] eqn:Hid;
      intros [= <- <-]; [by constructor|].
    constructor; [done|].
    eapply (normalizeFields_spec (λ _, True) (λ x y _, norm_rel tp x y));
      [done | | done | exact Hm].
    eapply Forall_impl; [exact IH|]. simpl. eauto.
Qed.

Lemma normalizeFields_shape o E o' E' :
  normalizeFields tp o E = (o', E') → fields_rel tp o o'.
Proof.
  intros Hm.
  eapply (normalizeFields_spec (λ _, True) (λ x y _, norm_rel tp x y));
    [done | | done | exact Hm].
  apply Forall_forall. intros kv _ s y s' _. split; [done|].
  by eapply normalizeValue_shape.
Qed.
End normalize_shape.

Lemma store_all_empty Pr : store_all Pr ∅.
Proof. intros id record. by rewrite lookup_empty. Qed.

Lemma store_all_mergeEntity (Pr : obj → Prop) entityId entity E :
  (∀ a b, Pr a → Pr b → Pr (spread a b)) →
  Pr entity → store_all Pr E → store_all Pr (mergeEntity entityId entity E).
Proof.
  intros Hspread Hentity HE id' record. rewrite mergeEntity_lookup.
  case_decide; [|by apply HE]. intros [= <-].
  destruct (E !! entityId) eqn:Hex; [|done]. apply Hspread; [|done].
  by eapply HE.
Qed.

Lemma store_all_mergeEntities (Pr : obj → Prop) incoming base :
  (∀ a b, Pr a → Pr b → Pr (spread a b)) →
  store_all Pr incoming → store_all Pr base →
  store_all Pr (mergeEntities incoming base).
Proof.
  intros Hspread Hinc Hbase id record. rewrite mergeEntities_lookup.
  destruct (incoming !! id) as [entity|] eqn:Hi; [|by apply Hbase].
  intros [= <-]. destruct (base !! id) eqn:Hb; [|by eapply Hinc].
  apply Hspread; [by eapply Hbase | by eapply Hinc].
Qed.

Section normalize_store.
Context (tp : TypePolicies).
Context (Pin : value → Prop) (Pr : obj → Prop).
Hypothesis Pin_arr : ∀ items, Pin (VArr items) → Forall Pin items.
Hypothesis Pin_obj : ∀ o, Pin (VObj o) → Forall (λ kv, Pin kv.2) o.
Hypothesis Pr_normalized : ∀ o o', Pin (VObj o) → fields_rel tp o o' → Pr o'.
Hypothesis Pr_spread : ∀ a b, Pr a → Pr b → Pr (spread a b).

(** Normalizing a value keeps a property of the records that holds of
    every normalized object and survives the merge. *)
Lemma normalizeValue_store v :
  Pin v → ∀ E v' E', store_all Pr E → normalizeValue tp v E = (v', E') →
  store_all Pr E'.
Proof.
  induction v as [| | | | | |items IH|fields IH] using value_rect_nested;
    intros Hin E v' E' HE; try (by intros [= <- <-]).
  - rewrite normalizeValue_arr.
    destruct (mapAccum _ items E) as [items' E1] eqn:Hm. intros [= <- <-].
    eapply (mapAccum_spec _ (store_all Pr) (λ _ _ _, True));
      [done | | exact HE | exact Hm].
    apply Pin_arr in Hin. rewrite Forall_forall in IH, Hin.
    apply Forall_forall. intros x Hx s y s' Hs Hn. split; [|done].
    intros _. eapply IH; eauto.
  - rewrite normalizeValue_obj.
    destruct (normalizeFields tp fields E) as [o' E1] eqn:Hm.
    assert (store_all Pr E1) as HE1.
    { eapply (normalizeFields_spec tp (store_all Pr) (λ _ _ _, True));
        [done | | exact HE | exact Hm].
      apply Pin_obj in Hin. rewrite Forall_forall in IH, Hin.
      apply Forall_forall. intros x Hx s y s' Hs Hn. split; [|done].
      intros _. eapply IH; eauto. }
    destruct (getEntityId fields tp) as [entityId|]; intros [= <- <-];
      [|done].
    apply store_all_mergeEntity; [done | | done].
    eapply Pr_normalized; [done|]. by eapply normalizeFields_shape.
Qed.
End normalize_store.

Lemma wf_value_arr items :
  wf_value (VArr items) = true → Forall (λ x, wf_value x = true) items.
Proof. apply all_objects_arr. Qed.

Lemma wf_value_obj o :
  wf_value (VObj o) = true → wf_obj o ∧ Forall (λ kv, wf_value kv.2 = true) o.
Proof.
  intros [Ho Hf]%all_objects_obj. split; [|done].
  by apply bool_decide_eq_true in Ho.
Qed.

(** The records extracted from a well-formed payload are well-formed. *)
Lemma normalize_wf data tp :
  wf_value data = true → store_all wf_obj (norm_entities (normalize data tp)).
Proof.
  intros Hwf. unfold normalize.
  destruct (normalizeValue tp data ∅) as [r E] eqn:Hn. simpl.
  eapply (normalizeValue_store tp (λ v, wf_value v = true) wf_obj);
    [apply wf_value_arr | | | | exact Hwf | apply store_all_empty | exact Hn].
  - intros o Ho. by apply wf_value_obj.
  - intros o o' [Ho _]%wf_value_obj Hrel. unfold wf_obj.
    rewrite (fields_rel_keys _ _ _ Hrel). by apply wf_assigned.
  - intros a b Ha _. by apply wf_spread.
Qed.

(** ** The entity store *)

(** C4. Writing a payload merges each extracted record into the record
    the store already has under the same id: the stored record becomes
    [{ ...old, ...incoming }], in which a field of the incoming record
    overwrites the old field of that name and every other old field is
    kept. *)
Theorem write_merges_records c data entityId old incoming :
  wf_value data = true →
  entities c !! entityId = Some old →
  norm_entities (normalize data (typePolicies c)) !! entityId = Some incoming →
  entities (write data c) !! entityId = Some (spread old incoming) ∧
  (∀ field,
     obj_get field (spread old incoming) =
     match obj_get field incoming with
     | Some v => Some v
     | None => obj_get field old
     end).
Proof.
  intros Hwf Hold Hinc. split.
  - unfold write. simpl. by rewrite mergeEntities_lookup, Hinc, Hold.
  - intros field. apply obj_get_spread. by eapply normalize_wf.
Qed.

Lemma write_merges_records_witness :
  wf_value userEmail = true ∧
  entities (write userNameA (emptyCache ∅)) !! "User:1" =
    Some [("__typename", VStr "User"); ("id", VStr "1"); ("name", VStr "A")] ∧
  entities (write userEmail (write userNameA (emptyCache ∅))) !! "User:1" =
    Some [("__typename", VStr "User"); ("id", VStr "1"); ("name", VStr "A");
          ("email", VStr "a@x")].
Proof.
  split_and!; [vm_compute; reflexivity | vm_compute; reflexivity |].
  destruct (write_merges_records (write userNameA (emptyCache ∅)) userEmail
              "User:1"
              [("__typename", VStr "User"); ("id", VStr "1"); ("name", VStr "A")]
              [("__typename", VStr "User"); ("id", VStr "1");
               ("email", VStr "a@x")]) as [H _];
    [vm_compute; reflexivity | vm_compute; reflexivity
    | vm_compute; reflexivity |].
  rewrite H. reflexivity.
Defined.

(** ** Optimistic layers *)

Lemma getEntities_foldl c :
  getEntities c = foldl mergeLayer (entities c) (optimisticLayers c).
Proof. unfold getEntities. by destruct (optimisticLayers c). Qed.

Lemma obj_get_spread_absent k (a b : obj) :
  obj_get k b = None → obj_get k (spread a b) = obj_get k a.
Proof.
  unfold spread. revert a. induction b as [|[k0 v0] b IH]; simpl; [done|].
  intros a. case_decide; [done|]. intros Hb. rewrite IH by done.
  rewrite obj_get_set. by rewrite decide_False.
Qed.

(** Layers that do not set a field leave it as they found it. *)
Lemma foldl_mergeLayer_keeps_field entityId field v layers :
  Forall (λ layer, ∀ e, OptimisticLayer.entities layer !! entityId = Some e →
                        obj_get field e = None) layers →
  ∀ (view : Entities) record,
    view !! entityId = Some record → obj_get field record = Some v →
    ∃ record', foldl mergeLayer view layers !! entityId = Some record' ∧
               obj_get field record' = Some v.
Proof.
  induction 1 as [|layer layers Hl _ IH]; intros view record Hview Hv; simpl.
  - eauto.
  - unfold mergeLayer at 2. 
    destruct (OptimisticLayer.entities layer !! entityId) as [e|] eqn:He.
    + eapply (IH _ (spread record e)).
      * by rewrite mergeEntities_lookup, He, Hview.
      * rewrite obj_get_spread_absent; eauto.
    + eapply (IH _ record); [|done].
      by rewrite mergeEntities_lookup, He.
Qed.

(** C5. The composed view is the base map with every layer merged in,
    oldest first, under the shallow-overwrite rule; so a field set by a
    layer shows that layer's value unless a layer added later sets it
    too, whatever the base and the older layers hold. *)
Theorem layer_precedence c older layer2 newer entityId e2 field v :
  optimisticLayers c = older ++ layer2 :: newer →
  OptimisticLayer.entities layer2 !! entityId = Some e2 →
  wf_obj e2 →
  obj_get field e2 = Some v →
  Forall (λ layer, ∀ e, OptimisticLayer.entities layer !! entityId = Some e →
                        obj_get field e = None) newer →
  getEntities c = foldl mergeLayer (entities c) (optimisticLayers c) ∧
  ∃ record, getEntities c !! entityId = Some record ∧
            obj_get field record = Some v.
Proof.
  intros Hlayers He2 Hwf Hv Hnewer. split; [apply getEntities_foldl|].
  rewrite getEntities_foldl, Hlayers, foldl_app. simpl.
  set (view := foldl mergeLayer (entities c) older).
  unfold mergeLayer at 2.
  eapply (foldl_mergeLayer_keeps_field _ _ _ _ Hnewer _
            (match view !! entityId with
             | Some existing => spread existing e2
             | None => e2 end)).
  - by rewrite mergeEntities_lookup, He2.
  - destruct (view !! entityId); [|done].
    by rewrite obj_get_spread, Hv.
Qed.

Lemma layer_precedence_witness :
  ∃ record, getEntities twoLayers !! "User:1" = Some record ∧
            obj_get "name" record = Some (VStr "B").
Proof.
  eapply (layer_precedence twoLayers
            [OptimisticLayer.mk "optimistic-1"
               (norm_entities (normalize (userNamed "A") ∅))]
            (OptimisticLayer.mk "optimistic-2"
               (norm_entities (normalize (userNamed "B") ∅)))
            [] "User:1"
            [("__typename", VStr "User"); ("id", VStr "1"); ("name", VStr "B")]
            "name" (VStr "B")).
  - reflexivity.
  - vm_compute. reflexivity.
  - unfold wf_obj. vm_compute. repeat constructor; set_solver.
  - reflexivity.
  - constructor.
Defined.

(** C3. Adding a layer leaves the base entity map as it is. Over a base
    store [S] with no layers, adding a layer and removing it by its handle
    right away gives the composed view [S] again. With other layers
    present the same holds of the composed view from before, and of the
    whole cache state, when the handle is one no present layer has. *)
Theorem optimistic_layer_reversible c layerId data :
  entities (addOptimisticLayer layerId data c) = entities c ∧
  entities (removeOptimisticLayer layerId (addOptimisticLayer layerId data c))
    = entities c ∧
  (optimisticLayers c = [] →
   getEntities (removeOptimisticLayer layerId (addOptimisticLayer layerId data c))
     = entities c) ∧
  (layerId ∉ (OptimisticLayer.id <$> optimisticLayers c) →
   removeOptimisticLayer layerId (addOptimisticLayer layerId data c) = c ∧
   getEntities (removeOptimisticLayer layerId (addOptimisticLayer layerId data c))
     = getEntities c).
Proof.
  assert (layerId ∉ (OptimisticLayer.id <$> optimisticLayers c) →
          removeOptimisticLayer layerId (addOptimisticLayer layerId data c) = c)
    as Heq.
  { intros Hfresh.
    destruct c as [E layers tp]. unfold removeOptimisticLayer, addOptimisticLayer.
    simpl in *. f_equal. rewrite filter_app, filter_cons, filter_nil.
    rewrite decide_False by (by intros Hne; apply Hne).
    rewrite app_nil_r. induction layers as [|l layers IH]; [done|].
    rewrite fmap_cons, not_elem_of_cons in Hfresh. destruct Hfresh as [Hl Hls].
    rewrite filter_cons, decide_True by done. by rewrite IH. }
  split_and!; [done | done | |].
  - intros Hnil. rewrite Heq.
    + unfold getEntities. by rewrite Hnil.
    + rewrite Hnil. apply not_elem_of_nil.
  - intros Hfresh. by rewrite Heq.
Qed.

Lemma optimistic_layer_reversible_witness :
  optimisticLayers (write userNameA (emptyCache ∅)) = [] ∧
  getEntities (removeOptimisticLayer "optimistic-1"
                 (addOptimisticLayer "optimistic-1" (userNamed "Z")
                    (write userNameA (emptyCache ∅))))
  = entities (write userNameA (emptyCache ∅)) ∧
  ("optimistic-3" ∉ (OptimisticLayer.id <$> optimisticLayers twoLayers)) ∧
  getEntities (removeOptimisticLayer "optimistic-3"
                 (addOptimisticLayer "optimistic-3" (userNamed "Z") twoLayers))
  = getEntities twoLayers.
Proof.
  assert ("optimistic-3" ∉ (OptimisticLayer.id <$> optimisticLayers twoLayers))
    as Hfresh.
  { simpl. rewrite !not_elem_of_cons. split_and!; [done | done |].
    apply not_elem_of_nil. }
  split_and!; [reflexivity | | exact Hfresh |].
  - destruct (optimistic_layer_reversible (write userNameA (emptyCache ∅))
                "optimistic-1" (userNamed "Z")) as (_ & _ & H & _).
    apply H. reflexivity.
  - destruct (optimistic_layer_reversible twoLayers "optimistic-3"
                (userNamed "Z")) as (_ & _ & _ & H).
    apply H. exact Hfresh.
Defined.

(** ** Reading *)

(** C10. [read] never completes by throwing: when [denormalize] throws,
    the [catch] clause turns the error into [null]; otherwise the
    denormalized value is returned. *)
Theorem read_never_throws stack rootResult c :
  read stack rootResult c ≠ Throw ∧
  (denormalize stack rootResult (getEntities c) ∅ = None →
   read stack rootResult c = Return VNull) ∧
  (∀ v visited,
     denormalize stack rootResult (getEntities c) ∅ = Some (v, visited) →
     read stack rootResult c = Return v).
Proof.
  unfold read.
  destruct (denormalize stack rootResult (getEntities c) ∅) as [[v vis]|];
    split_and!; try done.
  by intros v' vis' [= -> ->].
Qed.

Lemma read_never_throws_witness :
  denormalize 1 (VArr [VStr "a"]) (getEntities (emptyCache ∅)) ∅ = None ∧
  read 1 (VArr [VStr "a"]) (emptyCache ∅) = Return VNull ∧
  read 2 (VArr [VStr "a"]) (emptyCache ∅) = Return (VArr [VStr "a"]).
Proof.
  split_and!; [reflexivity | |].
  - apply (read_never_throws 1 (VArr [VStr "a"]) (emptyCache ∅)). reflexivity.
  - apply (read_never_throws 2 (VArr [VStr "a"]) (emptyCache ∅)) with ∅.
    reflexivity.
Defined.

(** ** Denormalization *)

Lemma denormalize_S stack result E visited :
  denormalize (S stack) result E visited =
  match result with
  | VNull | VUndef => Some (result, visited)
  | VArr items =>
      match
        mapAccumM (λ item vis, denormalize stack item E vis) items visited
      with
      | Some (items', visited') => Some (VArr items', visited')
      | None => None
      end
  | VObj fields =>
      if obj_has "__ref" fields then
        match obj_read "__ref" fields with
        | VStr entityId =>
            if decide (entityId ∈ visited) then
              Some (toEntityRef entityId, visited)
            else
              match E !! entityId with
              | None => Some (VUndef, visited)
              | Some entity =>
                  match
                    denormalize stack (VObj entity) E ({[entityId]} ∪ visited)
                  with
                  | Some (denormalized, visited') =>
                      Some (denormalized, visited' ∖ {[entityId]})
                  | None => None
                  end
              end
        | _ => Some (VUndef, visited)
        end
      else
        match
          mapAccumM
            (λ (kv : string * value) vis,
               match denormalize stack kv.2 E vis with
               | Some (val', vis') => Some ((kv.1, val'), vis')
               | None => None
               end)
            fields visited
        with
        | Some (entries, visited') =>
            Some (VObj (assigned entries), visited')
        | None => None
        end
  | _ => Some (result, visited)
  end.
Proof. reflexivity. Qed.

(** A loop whose callback leaves the state as it found it runs every
    element against the same state. *)
Lemma mapAccumM_restores {A B S : Type} (f : A → S → option (B * S)) l :
  (∀ x s y s', x ∈ l → f x s = Some (y, s') → s' = s) →
  ∀ s ys s', mapAccumM f l s = Some (ys, s') →
    s' = s ∧ Forall2 (λ x y, f x s = Some (y, s)) l ys.
Proof.
  induction l as [|x l IH]; intros Hf s ys s'; simpl.
  - intros [= <- <-]. by split.
  - destruct (f x s) as [[y s1]|] eqn:Hx; [|done].
    destruct (mapAccumM f l s1) as [[ys' s2]|] eqn:Hl; [|done].
    intros [= <- <-].
    assert (s1 = s) as -> by (eapply Hf; [left | done]).
    destruct (IH (λ x0 s0 y0 s0' Hin, Hf x0 s0 y0 s0' (list_elem_of_further _ _ _ Hin))
                 _ _ _ Hl) as [-> Hys].
    split; [done|]. by constructor.
Qed.

Lemma mapAccumM_total {A B S : Type} (f : A → S → option (B * S)) l s :
  Forall (λ x, ∃ y, f x s = Some (y, s)) l →
  ∃ ys, mapAccumM f l s = Some (ys, s).
Proof.
  induction 1 as [|x l [y Hy] _ [ys IH]]; simpl; [by eexists|].
  rewrite Hy, IH. by eexists.
Qed.

Lemma mapAccumM_mono {A B S : Type} (f g : A → S → option (B * S)) l :
  (∀ x s r, x ∈ l → f x s = Some r → g x s = Some r) →
  ∀ s r, mapAccumM f l s = Some r → mapAccumM g l s = Some r.
Proof.
  induction l as [|x l IH]; intros Hfg s r; simpl; [done|].
  destruct (f x s) as [[y s1]|] eqn:Hx; [|done].
  rewrite (Hfg _ _ _ (list_elem_of_here _ _) Hx).
  destruct (mapAccumM f l s1) as [[ys s2]|] eqn:Hl; [|done].
  rewrite (IH (λ x0 s0 r0 Hin, Hfg x0 s0 r0 (list_elem_of_further _ _ _ Hin))
              _ _ Hl).
  done.
Qed.

Section denormalize.
Context (E : Entities).

(** The [visited] set is scoped to the recursion path: whatever a call
    adds it deletes again before it returns. *)
Lemma denormalize_restores_visited stack :
  ∀ v visited r visited',
    denormalize stack v E visited = Some (r, visited') → visited' = visited.
Proof.
  induction stack as [|stack IH]; intros v visited r visited'; [done|].
  rewrite denormalize_S. destruct v as [| | | | | |items|fields];
    try (by intros [= <- <-]).
  - destruct (mapAccumM _ items visited) as [[items' vis']|] eqn:Hm; [|done].
    intros [= <- <-].
    eapply mapAccumM_restores in Hm as [-> _]; [done|].
    intros x s y s' _. apply IH.
  - destruct (obj_has "__ref" fields).
    + destruct (obj_read "__ref" fields); try (by intros [= <- <-]).
      case_decide as Hvis; [by intros [= <- <-]|].
      destruct (E !! s) as [entity|]; [|by intros [= <- <-]].
      destruct (denormalize stack _ E _) as [[d vis']|] eqn:Hd; [|done].
      intros [= <- <-]. apply IH in Hd as ->. set_solver.
    + destruct (mapAccumM _ fields visited) as [[o' vis']|] eqn:Hm; [|done].
      intros [= <- <-].
      eapply mapAccumM_restores in Hm as [-> _]; [done|].
      intros x s y s' _.
      destruct (denormalize stack x.2 E s) as [[v' vis'']|] eqn:Hd; [|done].
      intros [= <- <-]. by eapply IH.
Qed.

(** More stack never changes a result. *)
Lemma denormalize_S_mono stack :
  ∀ v visited r,
    denormalize stack v E visited = Some r →
    denormalize (S stack) v E visited = Some r.
Proof.
  induction stack as [|stack IH]; intros v visited r; [done|].
  rewrite (denormalize_S (S stack)), (denormalize_S stack).
  destruct v as [| | | | | |items|fields]; try done.
  - destruct (mapAccumM _ items visited) as [[items' vis']|] eqn:Hm; [|done].
    eapply (mapAccumM_mono _ (λ item vis, denormalize (S stack) item E vis))
      in Hm as ->; [done|].
    intros x s r' _. apply IH.
  - destruct (obj_has "__ref" fields).
    + destruct (obj_read "__ref" fields); try done.
      case_decide; [done|]. destruct (E !! s); [|done].
      destruct (denormalize stack _ E _) as [[d vis']|] eqn:Hd; [|done].
      by rewrite (IH _ _ _ Hd).
    + destruct (mapAccumM _ fields visited) as [[o' vis']|] eqn:Hm; [|done].
      eapply (mapAccumM_mono _
                (λ (kv : string * value) vis,
                   match denormalize (S stack) kv.2 E vis with
                   | Some (val', vis') => Some ((kv.1, val'), vis')
                   | None => None
                   end)) in Hm as ->; [done|].
      intros x s r' _. cbv beta.
      destruct (denormalize stack x.2 E s) as [[v' vis'']|] eqn:Hd; [|done].
      by rewrite (IH _ _ _ Hd).
Qed.

Lemma denormalize_mono stack stack' v visited r :
  stack ≤ stack' →
  denormalize stack v E visited = Some r →
  denormalize stack' v E visited = Some r.
Proof.
  induction 1 as [|stack' _ IH]; [done|]. intros H.
  by apply denormalize_S_mono, IH.
Qed.
End denormalize.

Lemma height_item x items : x ∈ items → height x < height (VArr items).
Proof.
  intros Hx. simpl. apply Nat.lt_succ_r, max_list_elem_of_le.
  by apply (list_elem_of_fmap_2 height).
Qed.

Lemma height_field (kv : string * value) fields :
  kv ∈ fields → height kv.2 < height (VObj fields).
Proof.
  intros Hx. simpl. apply Nat.lt_succ_r, max_list_elem_of_le.
  by apply (list_elem_of_fmap_2 (λ kv, height kv.2)).
Qed.

Lemma height_record (E : Entities) entityId record :
  E !! entityId = Some record → height (VObj record) ≤ maxRecordHeight E.
Proof.
  intros H. apply max_list_elem_of_le.
  apply (list_elem_of_fmap_2 (λ p, height (VObj p.2)) _ (entityId, record)).
  by apply elem_of_map_to_list.
Qed.

Section termination.
Context (E : Entities).

Lemma stackBound_record entityId record visited :
  E !! entityId = Some record → entityId ∉ visited →
  S (stackBound E ({[entityId]} ∪ visited) (VObj record)) ≤
  size (dom E ∖ visited) * S (maxRecordHeight E).
Proof.
  intros Hrec Hvis. unfold stackBound.
  pose proof (height_record _ _ _ Hrec) as Hh.
  assert (size (dom E ∖ ({[entityId]} ∪ visited)) < size (dom E ∖ visited))
    as Hsize.
  { apply subset_size. apply elem_of_dom_2 in Hrec. set_solver. }
  nia.
Qed.

(** Every call of [denormalize] returns, given a stack of the depth
    [stackBound], whatever references the entity map holds. *)
Lemma denormalize_terminates stack :
  ∀ v visited, stackBound E visited v ≤ stack →
    ∃ r, denormalize stack v E visited = Some (r, visited).
Proof.
  induction stack as [|stack IH]; intros v visited Hbound.
  { unfold stackBound in Hbound. destruct v; simpl in Hbound; lia. }
  rewrite denormalize_S. destruct v as [| | | | | |items|fields]; eauto.
  - destruct (mapAccumM_total (λ item vis, denormalize stack item E vis)
                items visited) as [ys ->]; [|eauto].
    apply Forall_forall. intros x Hx. apply IH.
    pose proof (height_item _ _ Hx). unfold stackBound in *. lia.
  - destruct (obj_has "__ref" fields).
    + destruct (obj_read "__ref" fields) as [| | | |entityId| | |]; eauto.
      case_decide as Hvis; [eauto|].
      destruct (E !! entityId) as [entity|] eqn:Hent; [|eauto].
      destruct (IH (VObj entity) ({[entityId]} ∪ visited)) as [r ->].
      * pose proof (stackBound_record _ _ _ Hent Hvis).
        unfold stackBound in Hbound at 1. simpl in Hbound. lia.
      * eexists. f_equal. f_equal. set_solver.
    + destruct (mapAccumM_total
                  (λ (kv : string * value) vis,
                     match denormalize stack kv.2 E vis with
                     | Some (val', vis') => Some ((kv.1, val'), vis')
                     | None => None
                     end) fields visited) as [ys ->]; [|eauto].
      apply Forall_forall. intros x Hx.
      destruct (IH x.2 visited) as [r ->]; [|eauto].
      pose proof (height_field _ _ Hx). unfold stackBound in *. lia.
Qed.
End termination.

Example cyclicStore_records :
  cyclicStore !! "A:1" =
    Some [("__typename", VStr "A"); ("id", VNum 1); ("b", toEntityRef "B:1")] ∧
  cyclicStore !! "B:1" =
    Some [("__typename", VStr "B"); ("id", VNum 1); ("a", toEntityRef "A:1")].
Proof. split; vm_compute; reflexivity. Qed.

Example denormalize_cycle :
  denormalize 6 (toEntityRef "A:1") cyclicStore ∅ =
  Some (entityObj "A" [("b", entityObj "B" [("a", toEntityRef "A:1")])], ∅).
Proof. vm_compute. reflexivity. Qed.

Example denormalize_diamond :
  denormalize 8 (toEntityRef "A:1") diamondStore ∅ =
  Some (diamondPayload, ∅).
Proof. vm_compute. reflexivity. Qed.

(** C2. For every entity map, cyclic or not, [denormalize] returns once
    the stack has the depth [stackBound], and a deeper stack gives the
    same result. A reference to an entity on the current path is returned
    as a raw reference. The [visited] set is path-scoped: a call leaves it
    as it found it, so the items of an array and the fields of an object
    (those the result gets: all but a field named [__proto__]) are each
    resolved against the set of their common ancestors only, and a
    reference off the path is replaced by its resolved record. *)
Theorem denormalize_cycle_safe E :
  (∀ v visited, ∃ r, ∀ stack,
     stackBound E visited v ≤ stack →
     denormalize stack v E visited = Some (r, visited)) ∧
  (∀ stack fields entityId visited,
     obj_get "__ref" fields = Some (VStr entityId) →
     entityId ∈ visited →
     denormalize (S stack) (VObj fields) E visited =
       Some (toEntityRef entityId, visited)) ∧
  (∀ stack v visited r visited',
     denormalize stack v E visited = Some (r, visited') → visited' = visited) ∧
  (∀ stack items visited items' visited',
     denormalize (S stack) (VArr items) E visited = Some (VArr items', visited') →
     Forall2 (λ x y, denormalize stack x E visited = Some (y, visited))
       items items') ∧
  (∀ stack fields visited fields' visited',
     obj_has "__ref" fields = false →
     denormalize (S stack) (VObj fields) E visited = Some (VObj fields', visited') →
     Forall2 (λ kv kv', kv.1 = kv'.1 ∧
                denormalize stack kv.2 E visited = Some (kv'.2, visited))
       (assigned fields) fields') ∧
  (∀ stack fields entityId visited record r,
     obj_get "__ref" fields = Some (VStr entityId) →
     entityId ∉ visited →
     E !! entityId = Some record →
     denormalize stack (VObj record) E ({[entityId]} ∪ visited) =
       Some (r, {[entityId]} ∪ visited) →
     denormalize (S stack) (VObj fields) E visited = Some (r, visited)).
Proof.
  split_and!.
  - intros v visited.
    destruct (denormalize_terminates E _ v visited (le_n _)) as [r Hr].
    exists r. intros stack Hle. by eapply denormalize_mono.
  - intros stack fields entityId visited Href Hvis. rewrite denormalize_S.
    unfold obj_has, obj_read. rewrite Href. simpl. by rewrite decide_True.
  - intros stack. apply denormalize_restores_visited.
  - intros stack items visited items' visited'. rewrite denormalize_S.
    destruct (mapAccumM _ items visited) as [[ys vis']|] eqn:Hm; [|done].
    intros [= <- <-].
    eapply mapAccumM_restores in Hm as [_ Hm]; [done|].
    intros x s y s' _. apply denormalize_restores_visited.
  - intros stack fields visited fields' visited' Hnoref.
    rewrite denormalize_S, Hnoref.
    destruct (mapAccumM _ fields visited) as [[ys vis']|] eqn:Hm; [|done].
    intros [= <- <-].
    eapply mapAccumM_restores in Hm as [_ Hm].
    + apply (Forall2_assigned
               (λ x y, denormalize stack x E visited = Some (y, visited))).
      eapply Forall2_impl; [exact Hm|]. intros kv kv'. cbv beta.
      destruct (denormalize stack kv.2 E visited) as [[v' vis'']|]; [|done].
      by intros [= <- <-].
    + intros x s y s' _.
      destruct (denormalize stack x.2 E s) as [[v' vis'']|] eqn:Hd; [|done].
      intros [= <- <-]. by eapply denormalize_restores_visited.
  - intros stack fields entityId visited record r Href Hvis Hrec Hd.
    rewrite denormalize_S. unfold obj_has, obj_read. rewrite Href. simpl.
    rewrite decide_False, Hrec, Hd by done. f_equal. f_equal. set_solver.
Qed.

Lemma denormalize_cycle_safe_witness :
  stackBound cyclicStore ∅ (toEntityRef "A:1") ≤ 10 ∧
  denormalize 10 (toEntityRef "A:1") cyclicStore ∅ =
    Some (entityObj "A" [("b", entityObj "B" [("a", toEntityRef "A:1")])], ∅) ∧
  denormalize 3 (toEntityRef "A:1") cyclicStore {["A:1"; "B:1"]} =
    Some (toEntityRef "A:1", {["A:1"; "B:1"]}) ∧
  stackBound diamondStore ∅ (toEntityRef "A:1") ≤ 22 ∧
  denormalize 22 (toEntityRef "A:1") diamondStore ∅ = Some (diamondPayload, ∅).
Proof.
  destruct (denormalize_cycle_safe cyclicStore) as (Hterm & Hraw & _).
  destruct (denormalize_cycle_safe diamondStore) as (Hterm' & _).
  assert (stackBound cyclicStore ∅ (toEntityRef "A:1") ≤ 10) as Hb.
  { vm_compute. lia. }
  assert (stackBound diamondStore ∅ (toEntityRef "A:1") ≤ 22) as Hb'.
  { vm_compute. lia. }
  split_and!; [exact Hb | | | exact Hb' |].
  - destruct (Hterm (toEntityRef "A:1") ∅) as [r Hr].
    rewrite (Hr 10 Hb). f_equal. f_equal.
    specialize (Hr 10 Hb). vm_compute in Hr. by injection Hr as <-.
  - apply Hraw; [reflexivity|]. set_solver.
  - destruct (Hterm' (toEntityRef "A:1") ∅) as [r Hr].
    rewrite (Hr 22 Hb'). f_equal. f_equal.
    specialize (Hr 22 Hb'). vm_compute in Hr. by injection Hr as <-.
Defined.

(** ** Field masking *)

Lemma maskRef_restores stack ref E visited v' visited' :
  maskRef stack ref E visited = Some (v', visited') → visited' = visited.
Proof.
  unfold maskRef. destruct ref as [| | | | | | |fields]; try (by intros [= <- <-]).
  destruct (obj_read "__ref" fields) as [| | | |entityId| | |];
    try (by intros [= <- <-]).
  destruct (E !! entityId) as [refEntity|]; [|by intros [= <- <-]].
  case_decide as Hvis; [by intros [= <- <-]|].
  destruct (denormalize stack _ E _) as [[d vis']|]; [|done].
  intros [= <- <-]. set_solver.
Qed.

Lemma maskField_restores stack v E visited v' visited' :
  maskField stack v E visited = Some (v', visited') → visited' = visited.
Proof.
  unfold maskField. destruct (isEntityRef v); [apply maskRef_restores|].
  destruct v as [| | | | | |items|fields]; try (by intros [= <- <-]).
  destruct (mapAccumM _ items visited) as [[items' vis']|] eqn:Hm; [|done].
  intros [= <- <-]. eapply mapAccumM_restores in Hm as [-> _]; [done|].
  intros x s y s' _. destruct (isEntityRef x); [apply maskRef_restores|].
  by intros [= <- <-].
Qed.

(** What the loop of [denormalizeWithMask] leaves in the result object. *)
Lemma js_in_lookup key (o : obj) :
  js_in key o = true ↔ is_Some (js_lookup key o).
Proof. unfold js_in. apply bool_decide_eq_true. Qed.

Lemma js_lookup_own key v (o : obj) :
  obj_get key o = Some v → js_lookup key o = Some v.
Proof. unfold js_lookup. by intros ->. Qed.

Lemma js_lookup_inherited key (o : obj) :
  obj_get key o = None → js_lookup key o = obj_get key objectPrototype.
Proof. unfold js_lookup. by intros ->. Qed.

Lemma obj_get_assign k key v (o : obj) :
  obj_get k (js_assign key v o) =
  if decide (key = k ∧ key ≠ "__proto__") then Some v else obj_get k o.
Proof.
  unfold js_assign. destruct (decide (key = "__proto__")) as [->|Hne].
  - rewrite decide_False; [done|]. naive_solver.
  - rewrite obj_get_set. destruct (decide (key = k)) as [->|Hk].
    + by rewrite decide_True.
    + rewrite decide_False; [done|]. naive_solver.
Qed.

(** One round of the loop of [denormalizeWithMask]. *)
Lemma maskLoop_cons stack entity E f rest res visited :
  maskLoop stack entity E (f :: rest) res visited =
  match js_lookup f entity with
  | None => maskLoop stack entity E rest res visited
  | Some v =>
      match maskField stack v E visited with
      | Some (v', visited') =>
          maskLoop stack entity E rest (js_assign f v' res) visited'
      | None => None
      end
  end.
Proof.
  cbn [maskLoop]. unfold js_in, js_get.
  destruct (js_lookup f entity) as [v|]; [|done].
  by rewrite bool_decide_eq_true_2 by eauto.
Qed.

Lemma maskLoop_spec stack entity E fragmentFields :
  ∀ res visited res' visited',
    maskLoop stack entity E fragmentFields res visited = Some (res', visited') →
    visited' = visited ∧
    (∀ k v, k ∈ fragmentFields → js_lookup k entity = Some v →
            is_Some (maskField stack v E visited)) ∧
    ∀ k, obj_get k res' =
         match js_lookup k entity with
         | Some v =>
             if decide (k ∈ fragmentFields ∧ k ≠ "__proto__")
             then fst <$> maskField stack v E visited
             else obj_get k res
         | None => obj_get k res
         end.
Proof.
  induction fragmentFields as [|f rest IH]; intros res visited res' visited'.
  - intros [= <- <-]. split_and!; [done | by intros k v []%elem_of_nil |].
    intros k. destruct (js_lookup k entity); [|done].
    rewrite decide_False; [done|]. intros [[]%elem_of_nil _].
  - rewrite maskLoop_cons. destruct (js_lookup f entity) as [v|] eqn:Hf.
    + destruct (maskField stack v E visited) as [[v' vis1]|] eqn:Hmask; [|done].
      pose proof (maskField_restores _ _ _ _ _ _ Hmask) as ->.
      intros (-> & Hsome & Hres)%IH. split_and!; [done | |].
      { intros k w [->|Hk]%elem_of_cons Hw; [|by eapply Hsome].
        rewrite Hf in Hw. injection Hw as <-. by rewrite Hmask. }
      intros k. rewrite Hres.
      destruct (js_lookup k entity) as [w|] eqn:Hk.
      * destruct (decide (k ∈ rest ∧ k ≠ "__proto__")) as [[Hin Hne]|Hnot].
        { rewrite decide_True; [done|]. split; [by right | done]. }
        rewrite obj_get_assign.
        destruct (decide (f = k ∧ f ≠ "__proto__")) as [[-> Hne]|Hnot'].
        { rewrite decide_True by (split; [left | done]). rewrite Hf in Hk.
          injection Hk as <-. by rewrite Hmask. }
        rewrite decide_False; [done|]. rewrite elem_of_cons. naive_solver.
      * rewrite obj_get_assign. rewrite decide_False; [done|].
        intros [-> _]. congruence.
    + intros (-> & Hsome & Hres)%IH. split_and!; [done | |].
      { intros k w [->|Hk]%elem_of_cons Hw; [congruence | by eapply Hsome]. }
      intros k. rewrite Hres.
      destruct (js_lookup k entity) as [w|] eqn:Hk; [|done].
      destruct (decide (k ∈ rest ∧ k ≠ "__proto__")) as [[Hin Hne]|Hnot].
      * rewrite decide_True; [done|]. split; [by right | done].
      * rewrite decide_False; [done|]. rewrite elem_of_cons.
        intros [[->|] ?]; [congruence | naive_solver].
Qed.

Lemma stackBound_recordBound (E : Entities) entityId record visited :
  E !! entityId = Some record →
  stackBound E visited (VObj record) ≤ recordBound E.
Proof.
  intros Hrec. unfold stackBound, recordBound.
  pose proof (height_record _ _ _ Hrec).
  assert (size (dom E ∖ visited) ≤ size E).
  { rewrite <- size_dom. apply subseteq_size. set_solver. }
  nia.
Qed.

Lemma maskRef_total stack ref E visited :
  recordBound E ≤ stack → ∃ v', maskRef stack ref E visited = Some (v', visited).
Proof.
  intros Hstack. unfold maskRef.
  destruct ref as [| | | | | | |fields]; eauto.
  destruct (obj_read "__ref" fields) as [| | | |entityId| | |]; eauto.
  destruct (E !! entityId) as [refEntity|] eqn:Hrec; eauto.
  case_decide as Hvis; eauto.
  destruct (denormalize_terminates E stack (VObj refEntity)
              ({[entityId]} ∪ visited)) as [r ->].
  - etrans; [by eapply stackBound_recordBound | done].
  - eexists. f_equal. f_equal. set_solver.
Qed.

Lemma maskField_total stack v E visited :
  recordBound E ≤ stack → ∃ v', maskField stack v E visited = Some (v', visited).
Proof.
  intros Hstack. unfold maskField.
  destruct (isEntityRef v); [by apply maskRef_total|].
  destruct v as [| | | | | |items|fields]; eauto.
  destruct (mapAccumM_total
              (λ item vis, if isEntityRef item then maskRef stack item E vis
                           else Some (item, vis)) items visited) as [ys ->];
    [|eauto].
  apply Forall_forall. intros x _.
  destruct (isEntityRef x); [by apply maskRef_total | eauto].
Qed.

Lemma maskLoop_total stack entity E fragmentFields :
  recordBound E ≤ stack →
  ∀ res visited, ∃ res',
    maskLoop stack entity E fragmentFields res visited = Some (res', visited).
Proof.
  intros Hstack. induction fragmentFields as [|f rest IH]; intros res visited.
  - by eexists.
  - rewrite maskLoop_cons. destruct (js_lookup f entity) as [v|]; [|apply IH].
    destruct (maskField_total stack v E visited Hstack) as [v' ->]. apply IH.
Qed.

(** The declared fields of a fragment: the output names of its top-level
    field selections, and the type discriminator. *)
Lemma elem_of_set_add x y (s : list string) :
  x ∈ set_add y s ↔ x = y ∨ x ∈ s.
Proof.
  unfold set_add. case_decide; [naive_solver|].
  rewrite elem_of_app, list_elem_of_singleton. naive_solver.
Qed.

Lemma elem_of_extractFields x selections :
  ∀ fields,
    x ∈ extractFieldsFromSelectionSet selections fields ↔
    x ∈ fields ∨ ∃ alias name, Field alias name ∈ selections ∧
                               x = default name alias.
Proof.
  unfold extractFieldsFromSelectionSet.
  induction selections as [|sel selections IH]; intros fields; simpl.
  - split; [by left|]. intros [|(? & ? & []%elem_of_nil & _)]; done.
  - rewrite IH. destruct sel as [alias name| |].
    + rewrite elem_of_set_add. split.
      * intros [[->|]|(a & n & Hin & ->)]; eauto.
        -- right. exists alias, name. split; [left | done].
        -- right. exists a, n. split; [by right | done].
      * intros [|(a & n & [[= -> ->]|Hin]%elem_of_cons & ->)]; eauto 6.
    + split.
      * intros [|(a & n & Hin & ->)]; eauto.
        right. exists a, n. split; [by right | done].
      * intros [|(a & n & [[=]|Hin]%elem_of_cons & ->)]; eauto 6.
    + split.
      * intros [|(a & n & Hin & ->)]; eauto.
        right. exists a, n. split; [by right | done].
      * intros [|(a & n & [[=]|Hin]%elem_of_cons & ->)]; eauto 6.
Qed.

Example mask_user1 :
  getFragmentFields userCardFragment = ["name"; "email"; "__typename"] ∧
  denormalizeWithMask 0 user1 user1Store (getFragmentFields userCardFragment) ∅
    = Some (VObj user1Masked) ∧
  obj_get "id" user1Masked = None ∧ obj_get "phone" user1Masked = None.
Proof. split_and!; reflexivity. Qed.

(** C6. Masking is not exact for a declared field that has the name of a
    property every object inherits: the record [User:1] of the
    specification has no field [constructor], the fragment declares
    [name] and [constructor], and the masked object holds a property
    [constructor], the inherited function, besides [name] and the type
    discriminator. *)
Theorem mask_shows_inherited_property :
  getFragmentFields constructorFragment =
    ["name"; "constructor"; "__typename"] ∧
  obj_get "constructor" user1 = None ∧
  denormalizeWithMask 0 user1 user1Store
    (getFragmentFields constructorFragment) ∅ =
    Some (VObj [("name", VStr "A"); ("constructor", VBuiltin "Object");
                ("__typename", VStr "User")]) ∧
  ∀ stack res,
    denormalizeWithMask stack user1 user1Store
      (getFragmentFields constructorFragment) ∅ = Some (VObj res) →
    is_Some (obj_get "constructor" res).
Proof.
  split_and!; [reflexivity | reflexivity | reflexivity |].
  intros stack res. vm_compute. intros [= <-]. by eexists.
Qed.

(** ** The shape of stored records *)

Lemma Forall2_impl_Forall {A B : Type} (P Q : A → B → Prop) l l' :
  Forall (λ x, ∀ y, P x y → Q x y) l → Forall2 P l l' → Forall2 Q l l'.
Proof.
  intros Hl H. induction H as [|x y l l' Hxy _ IH]; [constructor|].
  apply Forall_cons in Hl as [Hx Hl]. constructor; auto.
Qed.

Lemma norm_rel_prim_eq tp v : ∀ v', norm_rel tp v v' → prim_eq v v'.
Proof.
  induction v as [| | | | | |items IH|fields IH] using value_rect_nested;
    intros v'; inversion 1; subst; try constructor.
  by eapply Forall2_impl_Forall.
Qed.

Lemma no_proto_keys_obj fields :
  no_proto_keys (VObj fields) = true →
  obj_has "__proto__" fields = false ∧
  Forall (λ kv, no_proto_keys kv.2 = true) fields.
Proof.
  intros [Ho Hf]%all_objects_obj. split; [|done]. by apply negb_true_iff.
Qed.

Lemma fields_rel_prim_eq tp o o' :
  fields_rel tp o o' → fields_prim_eq (assigned o) o'.
Proof.
  unfold fields_rel, fields_prim_eq. intros H.
  eapply Forall2_impl; [exact H|]. intros kv kv' [? ?]. split; [done|].
  by eapply norm_rel_prim_eq.
Qed.

Lemma prim_eq_js_string v : ∀ v', prim_eq v v' → js_string v = js_string v'.
Proof.
  induction v as [| | | | | |items IH|fields IH] using value_rect_nested;
    intros v'; inversion 1; subst; try done.
  simpl. f_equal.
  match goal with H : Forall2 _ items _ |- _ => rename H into Hitems end.
  clear H. induction Hitems as [|x y l l' Hy _ IHl]; [done|].
  apply Forall_cons in IH as [Hx IH]. simpl.
  rewrite (IHl IH), (Hx _ Hy). by destruct Hy.
Qed.

Lemma prim_eq_truthy v v' : prim_eq v v' → truthy v = truthy v'.
Proof. by destruct 1. Qed.

Lemma prim_eq_nullish v v' : prim_eq v v' → nullish v = nullish v'.
Proof. by destruct 1. Qed.

Lemma fields_prim_eq_read key o o' :
  fields_prim_eq o o' → prim_eq (obj_read key o) (obj_read key o').
Proof.
  unfold obj_read. induction 1 as [|[k v] [k' v'] o o' [Hk Hv] _ IH]; simpl.
  - constructor.
  - simpl in Hk, Hv. subst k'. by case_decide.
Qed.

(** The identity of an object does not depend on what its nested objects
    hold, so normalizing the properties of an object keeps its identity. *)
Lemma getEntityId_prim_eq tp o o' :
  key_functions_shallow tp → fields_prim_eq o o' →
  getEntityId o tp = getEntityId o' tp.
Proof.
  intros Hshallow Hrel. unfold getEntityId.
  pose proof (fields_prim_eq_read "__typename" _ _ Hrel) as Htn.
  rewrite <- (prim_eq_truthy _ _ Htn), <- (prim_eq_js_string _ _ Htn).
  destruct (negb _); [done|].
  destruct (tp !! js_string (obj_read "__typename" o)) as [policy|] eqn:Hpol;
    simpl.
  - destruct (keyFields policy) as [[names|f]|] eqn:Hkf.
    + assert (map (keyPart o) names = map (keyPart o') names) as ->; [|done].
      apply map_ext. intros field. unfold keyPart.
      by destruct (fields_prim_eq_read field _ _ Hrel).
    + by rewrite (Hshallow _ _ _ Hpol Hkf _ _ Hrel).
    + unfold coalesce.
      pose proof (fields_prim_eq_read "id" _ _ Hrel) as Hid.
      pose proof (fields_prim_eq_read "_id" _ _ Hrel) as Hid'.
      rewrite <- (prim_eq_nullish _ _ Hid).
      destruct (nullish _); [by destruct Hid' | by destruct Hid].
  - unfold coalesce.
    pose proof (fields_prim_eq_read "id" _ _ Hrel) as Hid.
    pose proof (fields_prim_eq_read "_id" _ _ Hrel) as Hid'.
    rewrite <- (prim_eq_nullish _ _ Hid).
    destruct (nullish _); [by destruct Hid' | by destruct Hid].
Qed.

(** A normalized value holds no object with a resolvable identity. *)
Lemma norm_rel_no_raw_entity tp v :
  key_functions_shallow tp →
  no_proto_keys v = true →
  ∀ v', norm_rel tp v v' → no_raw_entity tp v' = true.
Proof.
  intros Hshallow.
  induction v as [| | | | | |items IH|fields IH] using value_rect_nested;
    intros Hproto v' H;
    inversion H as [| | | | | |? items' Hitems|? entityId Hid
                    |? fields' Hid Hfields]; subst; try done.
  - apply all_objects_arr. clear H. apply all_objects_arr in Hproto.
    induction Hitems as [|x y l l' Hy _ IHl]; [constructor|].
    apply Forall_cons in IH as [Hx IH].
    apply Forall_cons in Hproto as [Hpx Hproto].
    constructor; [by apply Hx | by apply IHl].
  - apply no_proto_keys_obj in Hproto as [Hown Hproto].
    rewrite (assigned_id _ Hown) in Hfields.
    apply all_objects_obj. split.
    + apply bool_decide_eq_true. rewrite <- Hid. symmetry.
      apply getEntityId_prim_eq; [done|].
      eapply Forall2_impl; [exact Hfields|]. intros kv kv' [? ?].
      split; [done|]. by eapply norm_rel_prim_eq.
    + clear Hid H Hown.
      induction Hfields as [|x y l l' [_ Hy] _ IHl]; [constructor|].
      apply Forall_cons in IH as [Hx IH].
      apply Forall_cons in Hproto as [Hpx Hproto].
      constructor; [by apply Hx | by apply IHl].
Qed.

Lemma normalize_clean data tp :
  key_functions_shallow tp →
  no_proto_keys data = true →
  store_clean tp (norm_entities (normalize data tp)).
Proof.
  intros Hshallow Hproto. unfold normalize.
  destruct (normalizeValue tp data ∅) as [r E] eqn:Hn. simpl.
  eapply (normalizeValue_store tp (λ v, no_proto_keys v = true)
            (clean_record tp));
    [| | | | exact Hproto | apply store_all_empty | exact Hn].
  - intros items. apply all_objects_arr.
  - intros o Ho. by apply no_proto_keys_obj in Ho as [_ Ho].
  - intros o o' [Hown Ho]%no_proto_keys_obj Hrel. unfold clean_record.
    unfold fields_rel in Hrel. rewrite (assigned_id _ Hown) in Hrel.
    clear Hown. revert Ho.
    induction Hrel as [|kv kv' o o' [_ Hv] _ IH]; [constructor|].
    intros [Hkv Ho]%Forall_cons.
    constructor; [by eapply norm_rel_no_raw_entity | by apply IH].
  - intros a b. apply Forall_spread.
Qed.

Lemma applyOp_typePolicies op c : typePolicies (applyOp op c) = typePolicies c.
Proof.
  destruct op as [data|id data|id fieldName|]; simpl; try done.
  - unfold writeFragment. by destruct (resolveId id c).
  - unfold evict. destruct (resolveId id c); [|done].
    by destruct (entities c !! _).
Qed.

Lemma store_clean_applyOp tp op c :
  key_functions_shallow tp → typePolicies c = tp → normalizedOp tp op →
  store_clean tp (entities c) → store_clean tp (entities (applyOp op c)).
Proof.
  intros Hshallow Htp Hop Hc.
  destruct op as [data|id data|id fieldName|]; simpl.
  - apply store_all_mergeEntities; [apply Forall_spread | | done].
    rewrite Htp. by apply normalize_clean.
  - unfold writeFragment. destruct (resolveId id c); [|done]. simpl.
    apply store_all_mergeEntity; [apply Forall_spread | done | done].
  - unfold evict. destruct (resolveId id c) as [entityId|]; [|done].
    destruct (entities c !! entityId) as [entity|] eqn:Hent; [|done].
    cbn [fst entities].
    assert (store_clean tp (delete entityId (entities c))) as Hdel.
    { intros id' record [_ ?]%lookup_delete_Some. by eapply Hc. }
    destruct fieldName as [f|]; [|done].
    destruct (truthy (VStr f)); [|done].
    intros id' record [[_ <-]|[_ ?]]%lookup_insert_Some; [|by eapply Hc].
    apply Forall_obj_omit. by eapply Hc.
  - apply store_all_empty.
Qed.

(** C7, as the code has it. In every state reached from the empty cache
    by [write] calls whose payload has no property named [__proto__], by
    [evict], by [clear] and by [writeFragment] calls whose data holds no
    object with a resolvable identity, no field value of a record holds
    such an object at any depth: nested entities are stored as references
    only. Custom key functions are taken not to look inside nested
    objects. What [write] stores for a payload with a property named
    [__proto__] is left open. *)
Theorem store_shape_invariant tp c :
  key_functions_shallow tp →
  reachable (normalizedOp tp) tp c →
  typePolicies c = tp ∧ store_clean tp (entities c).
Proof.
  intros Hshallow. induction 1 as [|c op _ [Htp IH] Hop].
  - split; [done | apply store_all_empty].
  - split; [by rewrite applyOp_typePolicies|].
    by apply store_clean_applyOp.
Qed.

Lemma key_functions_shallow_empty : key_functions_shallow ∅.
Proof. intros typename policy f. by rewrite lookup_empty. Qed.

Lemma store_shape_invariant_witness :
  key_functions_shallow ∅ ∧
  reachable (normalizedOp ∅) ∅ (applyOp (OpWrite diamondPayload) (emptyCache ∅)) ∧
  store_clean ∅ (entities (applyOp (OpWrite diamondPayload) (emptyCache ∅))).
Proof.
  assert (reachable (normalizedOp ∅) ∅
            (applyOp (OpWrite diamondPayload) (emptyCache ∅))) as Hreach.
  { apply reachable_step; [apply reachable_empty | reflexivity]. }
  split_and!; [apply key_functions_shallow_empty | exact Hreach |].
  apply (store_shape_invariant ∅ _ key_functions_shallow_empty Hreach).
Defined.

(** C7 as stated fails: [writeFragment] stores its data unnormalized. *)
Lemma writeFragment_stores_raw_entity :
  let c := applyOp (OpWriteFragment (IdString "User:1") rawFriend) (emptyCache ∅) in
  reachable anyOp ∅ c ∧
  entities c !! "User:1" = Some rawFriend ∧
  getEntityId [("__typename", VStr "User"); ("id", VStr "2")] ∅ = Some "User:2" ∧
  ¬ store_clean ∅ (entities c).
Proof.
  assert (entities (applyOp (OpWriteFragment (IdString "User:1") rawFriend)
                      (emptyCache ∅)) !! "User:1" = Some rawFriend) as Hrec.
  { vm_compute. reflexivity. }
  split_and!; [| exact Hrec | reflexivity |].
  - apply reachable_step; [apply reachable_empty | exact I].
  - intros Hclean. specialize (Hclean _ _ Hrec).
    apply Forall_cons in Hclean as [Hfriend _]. vm_compute in Hfriend.
    discriminate.
Qed.

Example deep_key_function_breaks_shape :
  let data :=
    entityObj "P" [("t", VObj [("__typename", VStr "T");
                               ("child", entityObj "U" [])])] in
  entities (write data (emptyCache deepKeyPolicies)) !! "P:1" =
    Some [("__typename", VStr "P"); ("id", VNum 1);
          ("t", VObj [("__typename", VStr "T"); ("child", toEntityRef "U:1")])] ∧
  getEntityId [("__typename", VStr "T"); ("child", toEntityRef "U:1")]
    deepKeyPolicies = Some "T:x".
Proof. split; vm_compute; reflexivity. Qed.

(** ** Round trip *)




Section resolve.
Context (E : Entities).



End resolve.

Lemma mapAccumM_Forall2 {A B S : Type} (f : A → S → option (B * S)) s l ys :
  Forall2 (λ x y, f x s = Some (y, s)) l ys → mapAccumM f l s = Some (ys, s).
Proof.
  induction 1 as [|x y l ys Hxy _ IH]; simpl; [done|]. by rewrite Hxy, IH.
Qed.

Section denormalize_resolves.
Context (E : Entities).



End denormalize_resolves.


Section roundtrip.
Context (tp : TypePolicies).


Lemma dom_mergeEntity entityId entity (E : Entities) :
  dom (mergeEntity entityId entity E) = {[entityId]} ∪ dom E.
Proof.
  unfold mergeEntity. destruct (E !! entityId); by rewrite dom_insert_L.
Qed.

End roundtrip.

(** *** Payloads whose entities are all distinct *)


Lemma no_refs_obj fields :
  no_refs (VObj fields) = true →
  obj_has "__ref" fields = false ∧ Forall (λ kv, no_refs kv.2 = true) fields.
Proof.
  intros [Ho Hf]%all_objects_obj. split; [|done]. by apply negb_true_iff.
Qed.

Section exact_roundtrip.
Context (tp : TypePolicies).





End exact_roundtrip.

(** *** Payloads without a property named [__proto__] *)

Lemma no_proto_keys_spread (a b : obj) :
  no_proto_keys (VObj a) = true → no_proto_keys (VObj b) = true →
  no_proto_keys (VObj (spread a b)) = true.
Proof.
  intros [Ha Hfa]%no_proto_keys_obj [Hb Hfb]%no_proto_keys_obj.
  apply all_objects_obj. split.
  - by rewrite obj_has_spread, Ha, Hb.
  - by apply Forall_spread.
Qed.

Lemma norm_rel_no_proto tp v :
  no_proto_keys v = true → ∀ v', norm_rel tp v v' → no_proto_keys v' = true.
Proof.
  induction v as [| | | | | |items IH|fields IH] using value_rect_nested;
    intros Hproto v' H;
    inversion H as [| | | | | |? items' Hitems|? entityId Hid
                    |? fields' Hid Hfields]; subst; try done.
  - apply all_objects_arr. clear H. apply all_objects_arr in Hproto.
    induction Hitems as [|x y l l' Hy _ IHl]; [constructor|].
    apply Forall_cons in IH as [Hx IH].
    apply Forall_cons in Hproto as [Hpx Hproto].
    constructor; [by apply Hx | by apply IHl].
  - apply no_proto_keys_obj in Hproto as [Hown Hproto].
    rewrite (assigned_id _ Hown) in Hfields.
    apply all_objects_obj. split.
    + by rewrite (obj_has_keys _ _ _ (Forall2_keys _ _ _ Hfields)), Hown.
    + clear Hid H Hown.
      induction Hfields as [|x y l l' [_ Hy] _ IHl]; [constructor|].
      apply Forall_cons in IH as [Hx IH].
      apply Forall_cons in Hproto as [Hpx Hproto].
      constructor; [by apply Hx | by apply IHl].
Qed.

(** Normalizing such a payload gives a result and records that have
    none either. *)
Lemma normalize_no_proto data tp :
  no_proto_keys data = true →
  no_proto_keys (result (normalize data tp)) = true ∧
  store_all (λ record, no_proto_keys (VObj record) = true)
    (norm_entities (normalize data tp)).
Proof.
  intros Hproto. unfold normalize.
  destruct (normalizeValue tp data ∅) as [r E] eqn:Hn. simpl. split.
  - eapply norm_rel_no_proto; [done|]. by eapply normalizeValue_shape.
  - eapply (normalizeValue_store tp (λ v, no_proto_keys v = true)
              (λ record, no_proto_keys (VObj record) = true));
      [| | | | exact Hproto | apply store_all_empty | exact Hn].
    + intros items. apply all_objects_arr.
    + intros o Ho. by apply no_proto_keys_obj in Ho as [_ Ho].
    + intros o o' Ho Hrel.
      assert (norm_rel tp (VObj o) (VObj o') ∨
              ∃ entityId, getEntityId o tp = Some entityId) as [Hn'|[id Hid]].
      { destruct (getEntityId o tp) eqn:Hid; [eauto|].
        left. by constructor. }
      * by eapply norm_rel_no_proto.
      * apply no_proto_keys_obj in Ho as [Hown Ho].
        unfold fields_rel in Hrel. rewrite (assigned_id _ Hown) in Hrel.
        apply all_objects_obj. split.
        -- by rewrite (obj_has_keys _ _ _ (Forall2_keys _ _ _ Hrel)), Hown.
        -- clear Hown Hid. revert Ho.
           induction Hrel as [|x y l l' [_ Hy] _ IHl]; [constructor|].
           intros [Hpx Ho]%Forall_cons.
           constructor; [by eapply norm_rel_no_proto | by apply IHl].
    + apply no_proto_keys_spread.
Qed.





(** C1. The round trip fails on a payload with a property named
    [__proto__]: the payload is a tree without entities, references or
    cycles, [normalize] returns it without that property, and no stack
    makes [denormalize] give the payload back. *)
Theorem roundtrip_loses_proto_property :
  no_refs protoPayload = true ∧
  entityIds ∅ protoPayload = [] ∧
  normalize protoPayload ∅ =
    {| result := VObj [("name", VStr "A")]; norm_entities := ∅ |} ∧
  denormalize 2 (result (normalize protoPayload ∅))
    (norm_entities (normalize protoPayload ∅)) ∅ =
    Some (VObj [("name", VStr "A")], ∅) ∧
  ∀ stack r visited,
    denormalize stack (result (normalize protoPayload ∅))
      (norm_entities (normalize protoPayload ∅)) ∅ = Some (r, visited) →
    r = VObj [("name", VStr "A")] ∧ r ≠ protoPayload.
Proof.
  assert (normalize protoPayload ∅ =
            {| result := VObj [("name", VStr "A")]; norm_entities := ∅ |})
    as Hn by (vm_compute; reflexivity).
  rewrite Hn. cbn [result norm_entities].
  split_and!; [reflexivity | reflexivity | reflexivity | reflexivity |].
  intros [|[|stack]] r visited; [done | done |].
  cbn. intros [= <- _]. by split.
Qed.

(** * Further properties of the cache *)

(** ** Eviction *)

Lemma obj_get_omit k f (o : obj) :
  obj_get k (obj_omit f o) = if decide (k = f) then None else obj_get k o.
Proof.
  unfold obj_omit. induction o as [|[k0 v0] o IH]; simpl.
  - by case_decide.
  - rewrite filter_cons. simpl. destruct (decide (k0 ≠ f)) as [Hne|Heq].
    + simpl. rewrite IH. repeat case_decide; congruence.
    + apply dec_stable in Heq. subst k0. rewrite IH.
      repeat case_decide; congruence.
Qed.

Lemma denormalize_ref stack entityId E visited :
  denormalize (S stack) (toEntityRef entityId) E visited =
  if decide (entityId ∈ visited) then Some (toEntityRef entityId, visited)
  else
    match E !! entityId with
    | None => Some (VUndef, visited)
    | Some entity =>
        match denormalize stack (VObj entity) E ({[entityId]} ∪ visited) with
        | Some (denormalized, visited') =>
            Some (denormalized, visited' ∖ {[entityId]})
        | None => None
        end
    end.
Proof. reflexivity. Qed.




(** X2. Evicting one field of an existing record removes that field and
    nothing else: the other fields of the record keep their values and
    the other records are untouched. An empty field name is falsy, so it
    evicts the whole entity. *)
Theorem evict_field c arg entityId record fieldName :
  resolveId arg c = Some entityId →
  entities c !! entityId = Some record →
  (fieldName ≠ "" →
   (evict arg (Some fieldName) c).2 = true ∧
   entities (evict arg (Some fieldName) c).1 !! entityId
     = Some (obj_omit fieldName record) ∧
   obj_get fieldName (obj_omit fieldName record) = None ∧
   (∀ k, k ≠ fieldName →
      obj_get k (obj_omit fieldName record) = obj_get k record) ∧
   (∀ other, other ≠ entityId →
      entities (evict arg (Some fieldName) c).1 !! other = entities c !! other)) ∧
  evict arg (Some "") c = evict arg None c.
Proof.
  intros Hid Hrec. split.
  - intros Hne. unfold evict. rewrite Hid, Hrec. simpl.
    rewrite bool_decide_eq_true_2 by done. simpl.
    split_and!; [done | apply lookup_insert_eq | | |].
    + rewrite obj_get_omit. by rewrite decide_True.
    + intros k Hk. rewrite obj_get_omit. by rewrite decide_False.
    + intros other Hother. by apply lookup_insert_ne.
  - unfold evict. by rewrite Hid, Hrec.
Qed.

Lemma evict_field_witness :
  resolveId (IdString "User:1") (write userNameA (emptyCache ∅)) = Some "User:1" ∧
  entities (evict (IdString "User:1") (Some "name")
              (write userNameA (emptyCache ∅))).1 !! "User:1"
    = Some [("__typename", VStr "User"); ("id", VStr "1")] ∧
  entities (evict (IdString "User:1") (Some "")
              (write userNameA (emptyCache ∅))).1 !! "User:1" = None.
Proof.
  destruct (evict_field (write userNameA (emptyCache ∅)) (IdString "User:1")
              "User:1"
              [("__typename", VStr "User"); ("id", VStr "1"); ("name", VStr "A")]
              "name") as [H Hempty];
    [reflexivity | vm_compute; reflexivity |].
  destruct H as (_ & Hrec & _); [discriminate|].
  split_and!; [reflexivity | |].
  - rewrite Hrec. reflexivity.
  - destruct (evict_field (write userNameA (emptyCache ∅)) (IdString "User:1")
                "User:1"
                [("__typename", VStr "User"); ("id", VStr "1");
                 ("name", VStr "A")] "name") as [_ ->];
      [reflexivity | vm_compute; reflexivity |].
    vm_compute. reflexivity.
Defined.

(** ** Removing optimistic layers *)

Lemma removeOptimisticLayer_layers layerId c layer :
  layer ∈ optimisticLayers (removeOptimisticLayer layerId c) ↔
  layer ∈ optimisticLayers c ∧ OptimisticLayer.id layer ≠ layerId.
Proof. unfold removeOptimisticLayer. simpl. rewrite list_elem_of_filter. tauto. Qed.

Lemma filter_layers_id (layers : list OptimisticLayer.t) layerId :
  layerId ∉ (OptimisticLayer.id <$> layers) →
  filter (λ layer, OptimisticLayer.id layer ≠ layerId) layers = layers.
Proof.
  induction layers as [|l layers IH]; [done|].
  rewrite fmap_cons, not_elem_of_cons. intros [Hl Hls].
  rewrite filter_cons, decide_True by done. by rewrite IH.
Qed.

Lemma filter_layers_comm (layers : list OptimisticLayer.t) h1 h2 :
  filter (λ layer, OptimisticLayer.id layer ≠ h1)
    (filter (λ layer, OptimisticLayer.id layer ≠ h2) layers) =
  filter (λ layer, OptimisticLayer.id layer ≠ h2)
    (filter (λ layer, OptimisticLayer.id layer ≠ h1) layers).
Proof.
  induction layers as [|l layers IH]; [done|].
  rewrite !filter_cons.
  destruct (decide (OptimisticLayer.id l ≠ h2)) as [H2|H2];
    destruct (decide (OptimisticLayer.id l ≠ h1)) as [H1|H1];
    rewrite ?filter_cons, ?decide_True, ?decide_False by done;
    by rewrite IH.
Qed.

(** X3. Removing a layer is idempotent, removals in either order give the
    same cache, a handle no layer has removes nothing, and in every case
    the base entity map and the type policies are left as they are, the
    layers with another handle stay in their order and no layer with the
    removed handle remains. *)
Theorem removeOptimisticLayer_algebra c h1 h2 :
  removeOptimisticLayer h1 (removeOptimisticLayer h1 c)
    = removeOptimisticLayer h1 c ∧
  removeOptimisticLayer h1 (removeOptimisticLayer h2 c)
    = removeOptimisticLayer h2 (removeOptimisticLayer h1 c) ∧
  (h1 ∉ (OptimisticLayer.id <$> optimisticLayers c) →
   removeOptimisticLayer h1 c = c) ∧
  entities (removeOptimisticLayer h1 c) = entities c ∧
  typePolicies (removeOptimisticLayer h1 c) = typePolicies c ∧
  optimisticLayers (removeOptimisticLayer h1 c) =
    filter (λ layer, OptimisticLayer.id layer ≠ h1) (optimisticLayers c) ∧
  h1 ∉ (OptimisticLayer.id <$> optimisticLayers (removeOptimisticLayer h1 c)).
Proof.
  assert (h1 ∉ (OptimisticLayer.id <$>
                  optimisticLayers (removeOptimisticLayer h1 c))) as Hgone.
  { intros (layer & Heq & Hin)%list_elem_of_fmap.
    apply removeOptimisticLayer_layers in Hin as [_ Hne]. by apply Hne. }
  split_and!; [| | | done | done | done | done].
  - unfold removeOptimisticLayer at 1. f_equal.
    destruct c as [E layers tp]. unfold removeOptimisticLayer in *. simpl in *.
    f_equal. by apply filter_layers_id.
  - unfold removeOptimisticLayer. simpl. f_equal. apply filter_layers_comm.
  - intros Hfresh. destruct c as [E layers tp]. unfold removeOptimisticLayer.
    simpl in *. f_equal. by apply filter_layers_id.
Qed.

Lemma removeOptimisticLayer_algebra_witness :
  ("optimistic-9" ∉ (OptimisticLayer.id <$> optimisticLayers twoLayers)) ∧
  removeOptimisticLayer "optimistic-9" twoLayers = twoLayers.
Proof.
  assert ("optimistic-9" ∉ (OptimisticLayer.id <$> optimisticLayers twoLayers))
    as Hfresh.
  { simpl. rewrite !not_elem_of_cons. split_and!; [done | done |].
    apply not_elem_of_nil. }
  split; [exact Hfresh|].
  destruct (removeOptimisticLayer_algebra twoLayers "optimistic-9" "")
    as (_ & _ & H & _).
  by apply H.
Defined.

(** ** Writing *)





Lemma keys_spread_l k (a b : obj) : k ∈ keys a → k ∈ keys (spread a b).
Proof.
  unfold spread. revert a. induction b as [|[k0 v0] b IH]; simpl; [done|].
  intros a Ha. apply IH. rewrite keys_obj_set. case_decide; [done|].
  apply elem_of_app. by left.
Qed.



(** The ids of the entity map grow by the ids of the entity objects met. *)
Lemma mapAccum_dom {A B : Type} (f : A → Entities → B * Entities)
    (ids : A → list string) (l : list A) :
  Forall (λ x, ∀ s y s', f x s = (y, s') →
            dom s' = dom s ∪ list_to_set (ids x)) l →
  ∀ s ys s', mapAccum f l s = (ys, s') →
    dom s' = dom s ∪ list_to_set (concat (map ids l)).
Proof.
  induction 1 as [|x l Hx _ IH]; intros s ys s'; simpl.
  - intros [= <- <-]. set_solver.
  - destruct (f x s) as [y s1] eqn:Hf.
    destruct (mapAccum f l s1) as [ys' s2] eqn:Hrest.
    intros [= <- <-]. rewrite (IH _ _ _ Hrest), (Hx _ _ _ Hf).
    rewrite list_to_set_app_L. set_solver.
Qed.

Lemma normalizeValue_dom tp v :
  ∀ E v' E', normalizeValue tp v E = (v', E') →
    dom E' = dom E ∪ list_to_set (entityIds tp v).
Proof.
  induction v as [| | | | | |items IH|fields IH] using value_rect_nested;
    intros E v' E'; try (intros [= <- <-]; simpl; set_solver).
  - rewrite normalizeValue_arr.
    destruct (mapAccum _ items E) as [items' E1] eqn:Hm. intros [= <- <-].
    by apply (mapAccum_dom _ (entityIds tp) _ IH _ _ _ Hm).
  - rewrite normalizeValue_obj, normalizeFields_entries.
    destruct (normalizeEntries tp fields E) as [o' E1] eqn:Hm. cbn [fst snd].
    assert (dom E1 = dom E ∪ list_to_set
              (concat (map (λ kv, entityIds tp kv.2) fields))) as Hdom.
    { unfold normalizeEntries in Hm.
      eapply (mapAccum_dom _ (λ kv : string * value, entityIds tp kv.2) fields);
        [|exact Hm].
      eapply Forall_impl; [exact IH|]. intros [k x] Hx s [k' y] s'. simpl.
      destruct (normalizeValue tp x s) as [x' s1] eqn:Hn.
      intros [= <- <- <-]. by eapply Hx. }
    cbn [entityIds].
    destruct (getEntityId fields tp) as [entityId|]; intros [= <- <-];
      [|done].
    rewrite dom_mergeEntity, Hdom. set_solver.
Qed.

Lemma normalize_dom data tp :
  dom (norm_entities (normalize data tp)) = list_to_set (entityIds tp data).
Proof.
  unfold normalize.
  destruct (normalizeValue tp data ∅) as [r E] eqn:Hn. simpl.
  rewrite (normalizeValue_dom _ _ _ _ _ Hn). set_solver.
Qed.

(** X5. The entity map that [normalize] returns has a record for the id
    of every entity object of the payload, at any depth, and for no other
    id. *)
Theorem normalize_entity_ids data tp :
  dom (norm_entities (normalize data tp)) = list_to_set (entityIds tp data) ∧
  (∀ entityId,
     is_Some (norm_entities (normalize data tp) !! entityId) ↔
     entityId ∈ entityIds tp data).
Proof.
  split; [apply normalize_dom|]. intros entityId.
  rewrite <- elem_of_dom, normalize_dom. apply elem_of_list_to_set.
Qed.

(** X6. [write] only adds: a record of the store stays under its id with
    all the field names it had, a record whose id is not that of an
    entity object of the payload is not touched at all, and the optimistic
    layers and the type policies are left alone. *)
Theorem write_only_adds c data entityId record :
  entities c !! entityId = Some record →
  (∃ record',
     entities (write data c) !! entityId = Some record' ∧
     ∀ k, is_Some (obj_get k record) → is_Some (obj_get k record')) ∧
  (entityId ∉ entityIds (typePolicies c) data →
   entities (write data c) !! entityId = Some record) ∧
  optimisticLayers (write data c) = optimisticLayers c ∧
  typePolicies (write data c) = typePolicies c.
Proof.
  intros Hrec. unfold write. simpl. rewrite mergeEntities_lookup, Hrec.
  split_and!; [| | done | done].
  - destruct (norm_entities _ !! entityId) as [e|]; eexists; split; try done.
    intros k. rewrite !obj_get_is_Some. apply keys_spread_l.
  - intros Hnotin.
    destruct (norm_entities _ !! entityId) as [e|] eqn:He; [|done].
    exfalso. apply Hnotin. apply (elem_of_list_to_set (C := gset string)).
    rewrite <- normalize_dom. apply elem_of_dom. eauto.
Qed.

Lemma write_only_adds_witness :
  entities (write userNameA (emptyCache ∅)) !! "User:1" =
    Some [("__typename", VStr "User"); ("id", VStr "1"); ("name", VStr "A")] ∧
  ("User:1" ∉ entityIds ∅ cyclicPayload) ∧
  entities (write cyclicPayload (write userNameA (emptyCache ∅))) !! "User:1" =
    Some [("__typename", VStr "User"); ("id", VStr "1"); ("name", VStr "A")].
Proof.
  assert (entities (write userNameA (emptyCache ∅)) !! "User:1" =
    Some [("__typename", VStr "User"); ("id", VStr "1"); ("name", VStr "A")])
    as Hrec by (vm_compute; reflexivity).
  assert ("User:1" ∉ entityIds ∅ cyclicPayload) as Hnotin.
  { assert (entityIds ∅ cyclicPayload = ["A:1"; "B:1"; "A:1"]) as ->
      by (vm_compute; reflexivity).
    intros Hin. repeat (apply elem_of_cons in Hin as [Hin|Hin]; [discriminate Hin|]).
    by apply elem_of_nil in Hin. }
  split_and!; [exact Hrec | exact Hnotin |].
  destruct (write_only_adds (write userNameA (emptyCache ∅)) cyclicPayload
              "User:1" _ Hrec) as (_ & H & _).
  exact (H Hnotin).
Defined.

(** ** Values that pass through unchanged *)

Lemma mapAccum_id {A S : Type} (f : A → S → A * S) (l : list A) :
  Forall (λ x, ∀ s, f x s = (x, s)) l → ∀ s, mapAccum f l s = (l, s).
Proof.
  induction 1 as [|x l Hx _ IH]; intros s; simpl; [done|].
  by rewrite Hx, IH.
Qed.

Lemma normalizeValue_no_entity tp v :
  no_raw_entity tp v = true → no_proto_keys v = true →
  ∀ E, normalizeValue tp v E = (v, E).
Proof.
  induction v as [| | | | | |items IH|fields IH] using value_rect_nested;
    intros Hclean Hproto E; try done.
  - unfold no_raw_entity in Hclean.
    apply all_objects_arr in Hclean. apply all_objects_arr in Hproto.
    rewrite normalizeValue_arr.
    rewrite mapAccum_id; [done|].
    rewrite Forall_forall in IH, Hclean, Hproto. apply Forall_forall.
    intros x Hx s. apply IH; [done | by apply Hclean | by apply Hproto].
  - unfold no_raw_entity in Hclean.
    apply all_objects_obj in Hclean as [Hid Hclean].
    apply bool_decide_eq_true in Hid.
    apply no_proto_keys_obj in Hproto as [Hown Hproto].
    rewrite normalizeValue_obj, (normalizeFields_plain _ _ _ Hown).
    unfold normalizeEntries.
    rewrite mapAccum_id; [by rewrite Hid|].
    rewrite Forall_forall in IH, Hclean, Hproto. apply Forall_forall.
    intros [k x] Hx s. simpl.
    by rewrite (IH _ Hx (Hclean _ Hx) (Hproto _ Hx)).
Qed.



Lemma denormalize_no_refs E v :
  ∀ stack visited, no_refs v = true → no_proto_keys v = true →
    height v ≤ stack →
    denormalize stack v E visited = Some (v, visited).
Proof.
  induction v as [| | | | | |items IH|fields IH] using value_rect_nested;
    intros [|stack] visited Hrefs Hproto Hh; try (simpl in Hh; lia);
    try done.
  - apply all_objects_arr in Hrefs. apply all_objects_arr in Hproto.
    rewrite denormalize_S.
    rewrite (mapAccumM_Forall2 _ visited items items); [done|].
    apply Forall_Forall2_diag. rewrite Forall_forall in IH, Hrefs, Hproto.
    apply Forall_forall. intros x Hx. apply IH; auto.
    pose proof (height_item _ _ Hx). simpl in *. lia.
  - apply no_refs_obj in Hrefs as [Href Hrefs].
    apply no_proto_keys_obj in Hproto as [Hown Hproto].
    rewrite denormalize_S, Href.
    rewrite (mapAccumM_Forall2 _ visited fields fields);
      [by rewrite (assigned_id _ Hown)|].
    apply Forall_Forall2_diag. rewrite Forall_forall in IH, Hrefs, Hproto.
    apply Forall_forall. intros [k x] Hx. simpl.
    pose proof (height_field _ _ Hx) as Hhf.
    change (height x < height (VObj fields)) in Hhf.
    pose proof (IH _ Hx stack visited (Hrefs _ Hx) (Hproto _ Hx)) as IHx.
    simpl in IHx. rewrite IHx; [done|]. lia.
Qed.

(** X8. A value that holds no reference object and no property named
    [__proto__] is returned as it is by [denormalize] and by [read],
    whatever the cache holds, once the stack covers the depth of the
    value. *)
Theorem read_without_references c v stack :
  no_refs v = true → no_proto_keys v = true → height v ≤ stack →
  (∀ E visited, denormalize stack v E visited = Some (v, visited)) ∧
  read stack v c = Return v.
Proof.
  intros Hrefs Hproto Hh. split.
  - intros E visited. by apply denormalize_no_refs.
  - unfold read. by rewrite denormalize_no_refs.
Qed.

Lemma read_without_references_witness :
  no_refs addressBook = true ∧ no_proto_keys addressBook = true ∧
  height addressBook ≤ 4 ∧
  read 4 addressBook twoLayers = Return addressBook.
Proof.
  split_and!; [reflexivity | reflexivity | vm_compute; lia |].
  apply (read_without_references twoLayers addressBook 4);
    [reflexivity | reflexivity | vm_compute; lia].
Defined.

(** ** Writing, then reading *)




(** ** References left by normalization *)

Lemma entityIds_item tp x items :
  x ∈ items → entityIds tp x ⊆ entityIds tp (VArr items).
Proof.
  intros Hx id Hid. simpl. apply list_elem_of_In, in_concat.
  exists (entityIds tp x). split; [|by apply list_elem_of_In].
  apply in_map. by apply list_elem_of_In.
Qed.

Lemma entityIds_field tp (kv : string * value) fields :
  kv ∈ fields → entityIds tp kv.2 ⊆ entityIds tp (VObj fields).
Proof.
  intros Hx id Hid.
  assert (id ∈ concat (map (λ kv, entityIds tp kv.2) fields)) as Hc.
  { apply list_elem_of_In, in_concat.
    exists (entityIds tp kv.2). split; [|by apply list_elem_of_In].
    apply (in_map (λ kv, entityIds tp kv.2)). by apply list_elem_of_In. }
  simpl. destruct (getEntityId fields tp); [by right|done].
Qed.

(** The references of a normalized, reference-free value name entity
    objects of the value. *)
Lemma norm_rel_refs_closed tp (D : gset string) v :
  no_refs v = true → no_proto_keys v = true →
  (∀ id, id ∈ entityIds tp v → id ∈ D) →
  ∀ v', norm_rel tp v v' → refs_closed D v' = true.
Proof.
  induction v as [| | | | | |items IH|fields IH] using value_rect_nested;
    intros Hrefs Hproto Hids v' H;
    inversion H as [| | | | | |? items' Hitems|? entityId Hid
                    |? fields' Hid Hfields]; subst; try done.
  - apply all_objects_arr. clear H. apply all_objects_arr in Hrefs.
    apply all_objects_arr in Hproto.
    assert (Forall (λ x, ∀ id, id ∈ entityIds tp x → id ∈ D) items) as Hsub.
    { apply Forall_forall. intros x Hx id Hid.
      by apply Hids, (entityIds_item tp x items). }
    clear Hids.
    induction Hitems as [|x y l l' Hy _ IHl]; [constructor|].
    apply Forall_cons in IH as [Hx IH].
    apply Forall_cons in Hrefs as [Hrx Hrefs].
    apply Forall_cons in Hproto as [Hpx Hproto].
    apply Forall_cons in Hsub as [Hsx Hsub].
    constructor; [by apply Hx | by apply IHl].
  - unfold refs_closed, toEntityRef. apply all_objects_obj. split.
    + unfold ref_ok. cbn. apply bool_decide_eq_true, Hids.
      simpl. rewrite Hid. by left.
    + by repeat constructor.
  - apply no_refs_obj in Hrefs as [Href Hrefs].
    apply no_proto_keys_obj in Hproto as [Hown Hproto].
    rewrite (assigned_id _ Hown) in Hfields.
    apply all_objects_obj. split.
    + unfold ref_ok.
      by rewrite (obj_has_keys _ fields fields' (Forall2_keys _ _ _ Hfields)),
        Href.
    + assert (Forall (λ kv, ∀ id, id ∈ entityIds tp kv.2 → id ∈ D) fields)
        as Hsub.
      { apply Forall_forall. intros x Hx id Hin.
        by apply Hids, (entityIds_field tp x fields). }
      clear Hid H Hids Href Hown.
      induction Hfields as [|x y l l' [_ Hy] _ IHl]; [constructor|].
      apply Forall_cons in IH as [Hx IH].
      apply Forall_cons in Hrefs as [Hrx Hrefs].
      apply Forall_cons in Hproto as [Hpx Hproto].
      apply Forall_cons in Hsub as [Hsx Hsub].
      constructor; [by apply Hx | by apply IHl].
Qed.

(** X10. Normalizing a payload without references and without
    properties named [__proto__] leaves no dangling reference: every
    reference in the result and in the records names a record of the
    entity map, and no record is itself a reference. *)
Theorem normalize_references_resolve data tp :
  no_refs data = true →
  no_proto_keys data = true →
  refs_closed (dom (norm_entities (normalize data tp)))
    (result (normalize data tp)) = true ∧
  store_all (record_closed (dom (norm_entities (normalize data tp))))
    (norm_entities (normalize data tp)).
Proof.
  intros Hrefs Hproto.
  assert (∀ id, id ∈ entityIds tp data →
            id ∈ dom (norm_entities (normalize data tp))) as Hdom.
  { intros id Hid. by rewrite normalize_dom, elem_of_list_to_set. }
  revert Hdom. generalize (dom (norm_entities (normalize data tp))). intros D HD.
  unfold normalize.
  destruct (normalizeValue tp data ∅) as [r E] eqn:Hn. simpl. split.
  - eapply norm_rel_refs_closed; [done | done | exact HD |].
    by eapply normalizeValue_shape.
  - eapply (normalizeValue_store tp
              (λ v, no_refs v = true ∧ no_proto_keys v = true ∧
                    ∀ id, id ∈ entityIds tp v → id ∈ D)
              (record_closed D));
      [| | | | split_and!; [exact Hrefs | exact Hproto | exact HD]
       | apply store_all_empty | exact Hn].
    + intros items (Hr & Hp & Hi). apply all_objects_arr in Hr.
      apply all_objects_arr in Hp.
      rewrite Forall_forall in Hr, Hp. apply Forall_forall. intros x Hx.
      split_and!; [by apply Hr | by apply Hp |]. intros id Hid.
      by apply Hi, (entityIds_item tp x items).
    + intros o (Hr & Hp & Hi). apply no_refs_obj in Hr as [_ Hr].
      apply no_proto_keys_obj in Hp as [_ Hp].
      rewrite Forall_forall in Hr, Hp. apply Forall_forall. intros x Hx.
      split_and!; [by apply Hr | by apply Hp |]. intros id Hid.
      by apply Hi, (entityIds_field tp x o).
    + intros o o' (Hr & Hp & Hi) Hrel. apply no_refs_obj in Hr as [Href Hr].
      apply no_proto_keys_obj in Hp as [Hown Hp].
      unfold fields_rel in Hrel. rewrite (assigned_id _ Hown) in Hrel. split.
      * by rewrite (obj_has_keys _ o o' (Forall2_keys _ _ _ Hrel)).
      * assert (Forall (λ kv, ∀ id, id ∈ entityIds tp kv.2 → id ∈ D) o)
          as Hsub.
        { apply Forall_forall. intros x Hx id Hin.
          by apply Hi, (entityIds_field tp x o). }
        clear Hi Href Hown.
        induction Hrel as [|x y l l' [_ Hy] _ IHl]; [constructor|].
        apply Forall_cons in Hr as [Hrx Hr].
        apply Forall_cons in Hp as [Hpx Hp].
        apply Forall_cons in Hsub as [Hsx Hsub].
        constructor; [by eapply norm_rel_refs_closed | by apply IHl].
    + intros a b [Ha Hfa] [Hb Hfb]. split.
      * by rewrite obj_has_spread, Ha, Hb.
      * by apply Forall_spread.
Qed.

Lemma normalize_references_resolve_witness :
  no_refs diamondPayload = true ∧
  no_proto_keys diamondPayload = true ∧
  refs_closed (dom diamondStore) (result (normalize diamondPayload ∅)) = true ∧
  store_all (record_closed (dom diamondStore)) diamondStore.
Proof.
  split_and!; [reflexivity | reflexivity | |];
    apply (normalize_references_resolve diamondPayload ∅); reflexivity.
Defined.

(** ** Identities under the default policy *)

Lemma string_app_nil (t : string) : "" +:+ t = t.
Proof. reflexivity. Qed.

Lemma string_app_cons c (s t : string) : String c s +:+ t = String c (s +:+ t).
Proof. reflexivity. Qed.

Lemma app_colon_inj (a a' b b' : string) :
  has_colon a = false → has_colon a' = false →
  a +:+ ":" +:+ b = a' +:+ ":" +:+ b' → a = a' ∧ b = b'.
Proof.
  revert a'. induction a as [|x a IH]; intros [|x' a']; cbn [has_colon];
    rewrite ?string_app_cons, ?string_app_nil.
  - by intros _ _ [= ->].
  - intros _ [Hx' _]%orb_false_iff [= <- _].
    by apply bool_decide_eq_false in Hx'.
  - intros [Hx _]%orb_false_iff _ [= -> _].
    by apply bool_decide_eq_false in Hx.
  - intros [_ Ha]%orb_false_iff [_ Ha']%orb_false_iff [= -> Heq].
    destruct (IH a' Ha Ha' Heq) as [-> ->]. done.
Qed.

Lemma getEntityId_default_policy object tp :
  policyOf object tp = None →
  getEntityId object tp =
  if truthy (obj_read "__typename" object) then
    match defaultIdentity object with
    | VStr s => Some (typenameOf object +:+ ":" +:+ s)
    | VNum n => Some (typenameOf object +:+ ":" +:+ pretty n)
    | _ => None
    end
  else None.
Proof.
  unfold policyOf, getEntityId, defaultIdentity, typenameOf. intros ->.
  by destruct (truthy _).
Qed.

Lemma getEntityId_default_Some object tp entityId :
  policyOf object tp = None →
  getEntityId object tp = Some entityId →
  entityId = typenameOf object +:+ ":" +:+ js_string (defaultIdentity object) ∧
  nullish (defaultIdentity object) = false.
Proof.
  intros Hp. rewrite (getEntityId_default_policy _ _ Hp).
  destruct (truthy _); [|done].
  destruct (defaultIdentity object); try done; by intros [= <-].
Qed.

(** X11. Under the default policy, with type names free of colons and
    with identities that are strings or safe integers, two objects that
    resolve get the same entity id exactly when they have the same type
    name and identities that print alike: a safe integer and the string
    of its decimal digits name the same entity. *)
Theorem getEntityId_default_same_iff o o' tp entityId entityId' :
  policyOf o tp = None → policyOf o' tp = None →
  has_colon (typenameOf o) = false →
  has_colon (typenameOf o') = false →
  safe_integer (defaultIdentity o) = true →
  safe_integer (defaultIdentity o') = true →
  getEntityId o tp = Some entityId →
  getEntityId o' tp = Some entityId' →
  entityId = entityId' ↔
  typenameOf o = typenameOf o' ∧
  js_string (defaultIdentity o) = js_string (defaultIdentity o').
Proof.
  intros Hp Hp' Hc Hc' _ _ Hid Hid'.
  apply (getEntityId_default_Some _ _ _ Hp) in Hid as [-> _].
  apply (getEntityId_default_Some _ _ _ Hp') in Hid' as [-> _].
  split; [by apply app_colon_inj | by intros [-> ->]].
Qed.

Lemma getEntityId_default_same_iff_witness :
  safe_integer (defaultIdentity userNumericId) = true ∧
  safe_integer (defaultIdentity userStringId) = true ∧
  getEntityId userNumericId ∅ = Some "User:12" ∧
  getEntityId userStringId ∅ = Some "User:12" ∧
  ("User:12" = "User:12" ↔
   typenameOf userNumericId = typenameOf userStringId ∧
   js_string (defaultIdentity userNumericId) =
     js_string (defaultIdentity userStringId)).
Proof.
  split_and!; [reflexivity | reflexivity | reflexivity | reflexivity |].
  apply (getEntityId_default_same_iff userNumericId userStringId ∅);
    reflexivity.
Defined.

(** X12. An object with a string type name that resolves under the
    default policy is an entity in the sense of [isEntity]. *)
Theorem getEntityId_default_isEntity o tp typename entityId :
  policyOf o tp = None →
  obj_read "__typename" o = VStr typename →
  getEntityId o tp = Some entityId →
  isEntity (VObj o) = true.
Proof.
  intros Hp Htn Hid.
  apply (getEntityId_default_Some _ _ _ Hp) in Hid as [_ Hnn].
  unfold isEntity. rewrite Htn. unfold defaultIdentity, coalesce in Hnn.
  destruct (nullish (obj_read "id" o)); [|done]. by rewrite Hnn.
Qed.

Lemma getEntityId_default_isEntity_witness :
  policyOf userStringId ∅ = None ∧
  obj_read "__typename" userStringId = VStr "User" ∧
  getEntityId userStringId ∅ = Some "User:12" ∧
  isEntity (VObj userStringId) = true.
Proof.
  split_and!; [reflexivity..|].
  apply (getEntityId_default_isEntity userStringId ∅ "User" "User:12");
    reflexivity.
Defined.

(** ** Layers, fragments and references of the cache *)



(** X13. For reads, a new optimistic layer sits on top of everything:
    the composed view with the layer is the merge of the normalized
    payload of the layer over the composed view without it. *)
Theorem getEntities_addOptimisticLayer layerId data c :
  getEntities (addOptimisticLayer layerId data c) =
  mergeEntities (norm_entities (normalize data (typePolicies c)))
    (getEntities c).
Proof.
  rewrite !getEntities_foldl. unfold addOptimisticLayer. simpl.
  by rewrite foldl_app.
Qed.



(** X15. Without optimistic layers, a fragment written under an id is
    read back whole by [readFragment] without a fragment document: the
    stored record merged with the data, when that holds no reference and
    no property named [__proto__]. *)
Theorem writeFragment_readFragment stack arg data c entityId :
  resolveId arg c = Some entityId →
  optimisticLayers c = [] →
  let merged := match entities c !! entityId with
                | Some existing => spread existing data
                | None => data
                end in
  no_refs (VObj merged) = true →
  no_proto_keys (VObj merged) = true →
  height (VObj merged) ≤ stack →
  readFragment stack arg None (writeFragment arg data c) = Some (VObj merged).
Proof.
  intros Hid Hlayers merged Hrefs Hproto Hh.
  assert (resolveId arg (writeFragment arg data c) = Some entityId) as Hid'.
  { unfold writeFragment. rewrite Hid. by destruct arg. }
  unfold readFragment. rewrite Hid'. unfold writeFragment. rewrite Hid.
  unfold getEntities. simpl. rewrite Hlayers.
  rewrite mergeEntity_lookup, decide_True by done. fold merged.
  by rewrite denormalize_no_refs.
Qed.

Lemma writeFragment_readFragment_witness :
  resolveId (IdString "User:1") (write userNameA (emptyCache ∅)) =
    Some "User:1" ∧
  optimisticLayers (write userNameA (emptyCache ∅)) = [] ∧
  no_refs userMerged = true ∧
  no_proto_keys userMerged = true ∧
  height userMerged ≤ 3 ∧
  readFragment 3 (IdString "User:1") None
    (writeFragment (IdString "User:1") [("email", VStr "a@x")]
       (write userNameA (emptyCache ∅))) = Some userMerged.
Proof.
  assert (height userMerged ≤ 3) as Hh by (vm_compute; lia).
  split_and!;
    [reflexivity | reflexivity | reflexivity | reflexivity | exact Hh |].
  exact (writeFragment_readFragment 3 (IdString "User:1")
           [("email", VStr "a@x")] (write userNameA (emptyCache ∅)) "User:1"
           eq_refl eq_refl eq_refl eq_refl Hh).
Defined.



(** ** [useFragment] *)




(** X19. With [throwOnMissing] on, the getter of [useFragment] returns
    [null] only for a missing reference: any other value it returns is an
    object, read from a record the composed view holds under the id built
    from the reference. *)
Theorem useFragment_strict stack fragmentDoc fragmentRef c v :
  useFragment stack fragmentDoc fragmentRef true c = Returned v →
  (truthy fragmentRef = false ∧ v = VNull) ∨
  (truthy fragmentRef = true ∧ (∃ o, v = VObj o) ∧
   is_Some (getEntities c !! fragmentEntityId fragmentRef)).
Proof.
  unfold useFragment. destruct (truthy fragmentRef); simpl.
  2:{ intros [= <-]. by left. }
  destruct (negb (truthy (prop "__typename" fragmentRef))); [done|].
  destruct (nullish (prop "id" fragmentRef)); [done|].
  fold (fragmentEntityId fragmentRef).
  unfold readFragment.
  destruct (resolveId _ c) as [entityId|] eqn:Hid; [|done].
  simpl in Hid. case_bool_decide; [|done]. injection Hid as <-.
  destruct (getEntities c !! fragmentEntityId fragmentRef) as [entity|];
    [|done].
  unfold denormalizeWithMask.
  destruct (maskLoop _ _ _ _ _ _) as [[res vis]|]; [|done].
  simpl. intros [= <-]. right. eauto.
Qed.

Lemma useFragment_strict_witness :
  useFragment 6 userCardFragment userNameA true
    (write userTwice (emptyCache ∅)) =
    Returned (VObj [("name", VStr "A"); ("email", VStr "a@x");
                    ("__typename", VStr "User")]) ∧
  is_Some (getEntities (write userTwice (emptyCache ∅))
             !! fragmentEntityId userNameA).
Proof.
  assert (useFragment 6 userCardFragment userNameA true
            (write userTwice (emptyCache ∅)) =
          Returned (VObj [("name", VStr "A"); ("email", VStr "a@x");
                          ("__typename", VStr "User")])) as Hrun
    by (vm_compute; reflexivity).
  split; [exact Hrun|].
  destruct (useFragment_strict _ _ _ _ _ Hrun) as [[Hf _]|(_ & _ & Hsome)];
    [discriminate Hf | exact Hsome].
Defined.

(** X20. For an object that the cache identifies under the default policy
    by its [id] property, [useFragment] builds the id the cache builds and
    reads what [readFragment] reads for the object itself. *)
Theorem useFragment_reads_cache_entity stack fragmentDoc object c entityId :
  policyOf object (typePolicies c) = None →
  nullish (obj_read "id" object) = false →
  getEntityId object (typePolicies c) = Some entityId →
  fragmentEntityId (VObj object) = entityId ∧
  useFragment stack fragmentDoc (VObj object) false c =
    match readFragment stack (IdObject object) (Some fragmentDoc) c with
    | Some v => Returned v
    | None => ThrownRangeError
    end.
Proof.
  intros Hp Hnn Hid.
  pose proof (getEntityId_truthy _ _ _ Hid) as Htruthy.
  assert (truthy (obj_read "__typename" object) = true) as Htn.
  { rewrite (getEntityId_default_policy _ _ Hp) in Hid.
    by destruct (truthy (obj_read "__typename" object)). }
  assert (fragmentEntityId (VObj object) = entityId) as Heq.
  { apply (getEntityId_default_Some _ _ _ Hp) in Hid as [-> _].
    unfold fragmentEntityId, typenameOf, defaultIdentity, coalesce. simpl.
    by rewrite Hnn. }
  split; [done|]. unfold useFragment. simpl. rewrite Htn, Hnn. simpl.
  change (js_string (obj_read "__typename" object) +:+ ":" +:+
          js_string (obj_read "id" object))
    with (fragmentEntityId (VObj object)).
  rewrite Heq. unfold readFragment, resolveId. rewrite Htruthy, Hid.
  destruct (getEntities c !! entityId); [|done].
  destruct (denormalizeWithMask _ _ _ _ _); [|done]. by rewrite andb_false_r.
Qed.

Lemma useFragment_reads_cache_entity_witness :
  policyOf userNumericId ∅ = None ∧
  nullish (obj_read "id" userNumericId) = false ∧
  getEntityId userNumericId ∅ = Some "User:12" ∧
  fragmentEntityId (VObj userNumericId) = "User:12".
Proof.
  split_and!; [reflexivity..|].
  apply (useFragment_reads_cache_entity 3 userCardFragment userNumericId
           (emptyCache ∅) "User:12"); reflexivity.
Defined.

(** X21. Every entity in the sense of [isEntity] that carries its
    identity in the [id] property is a fragment reference in the sense of
    [isFragmentRef]. *)
Theorem isEntity_isFragmentRef v :
  isEntity v = true → nullish (prop "id" v) = false → isFragmentRef v = true.
Proof.
  destruct v as [| | | | | | |o]; try done. unfold isEntity, isFragmentRef, prop.
  unfold obj_has, obj_read.
  destruct (obj_get "__typename" o) as [[| | | |s| | |]|]; try done.
  destruct (obj_get "id" o); [done|]. intros _ [=].
Qed.

Lemma isEntity_isFragmentRef_witness :
  isEntity userNameA = true ∧ nullish (prop "id" userNameA) = false ∧
  isFragmentRef userNameA = true.
Proof.
  split_and!; [reflexivity | reflexivity |].
  apply isEntity_isFragmentRef; reflexivity.
Defined.

(** ** The optimistic layer of a mutation *)

Lemma string_app_inj_l (s t u : string) : s +:+ t = s +:+ u → t = u.
Proof.
  induction s as [|a s IH]; [done|]. rewrite !string_app_cons.
  intros [= Heq]. by apply IH.
Qed.

Lemma layerHandle_inj n m : layerHandle n = layerHandle m → n = m.
Proof.
  unfold layerHandle. intros Heq%string_app_inj_l. by apply (inj pretty).
Qed.

Lemma layerHandle_truthy n : truthy (VStr (layerHandle n)) = true.
Proof. by apply bool_decide_eq_true. Qed.

Lemma layers_issued_fresh st :
  layers_issued st →
  layerHandle (optimisticIdCounter st + 1) ∉
    (OptimisticLayer.id <$> optimisticLayers (cache st)).
Proof.
  unfold layers_issued. rewrite Forall_forall.
  intros Hissued (layer & Hid & Hin)%list_elem_of_fmap.
  destruct (Hissued _ Hin) as (n & Hle & Hn). rewrite Hn in Hid.
  apply layerHandle_inj in Hid. lia.
Qed.

Lemma layers_issued_mono st (counter : Z) (c : Cache) :
  layers_issued st →
  (optimisticIdCounter st ≤ counter)%Z →
  optimisticLayers c ⊆ optimisticLayers (cache st) →
  layers_issued {| optimisticIdCounter := counter; cache := c |}.
Proof.
  unfold layers_issued. rewrite !Forall_forall. simpl.
  intros Hissued Hle Hsub layer Hin.
  destruct (Hissued layer (Hsub _ Hin)) as (n & Hn & Hid).
  exists n. split; [lia | done].
Qed.

Lemma onMutate_cases optimisticResponse variables st :
  onMutate optimisticResponse variables st = (None, st) ∨
  ∃ response,
    onMutate optimisticResponse variables st =
    (Some (layerHandle (optimisticIdCounter st + 1)),
     {| optimisticIdCounter := (optimisticIdCounter st + 1)%Z;
        cache := addOptimisticLayer
                   (layerHandle (optimisticIdCounter st + 1)) response
                   (cache st) |}).
Proof.
  unfold onMutate.
  destruct optimisticResponse as [[response|f]|];
    [destruct (truthy response)| |]; eauto.
Qed.

Lemma onMutate_Some optimisticResponse variables st layerId st' :
  onMutate optimisticResponse variables st = (Some layerId, st') →
  ∃ response,
    layerId = layerHandle (optimisticIdCounter st + 1) ∧
    st' = {| optimisticIdCounter := (optimisticIdCounter st + 1)%Z;
             cache := addOptimisticLayer layerId response (cache st) |}.
Proof.
  destruct (onMutate_cases optimisticResponse variables st)
    as [->|[response ->]]; [done|].
  intros [= <- <-]. eauto.
Qed.

Lemma onMutate_None optimisticResponse variables st st' :
  onMutate optimisticResponse variables st = (None, st') → st' = st.
Proof.
  destruct (onMutate_cases optimisticResponse variables st)
    as [->|[response ->]]; [|done].
  by intros [= <-].
Qed.

Lemma removeOptimisticLayer_added layerId data c :
  layerId ∉ (OptimisticLayer.id <$> optimisticLayers c) →
  removeOptimisticLayer layerId (addOptimisticLayer layerId data c) = c.
Proof.
  intros Hfresh. unfold removeOptimisticLayer, addOptimisticLayer. simpl.
  rewrite filter_app, filter_layers_id by done.
  rewrite filter_cons, decide_False by (simpl; naive_solver).
  rewrite filter_nil, app_nil_r. by destruct c.
Qed.

(** X22. The handles of the optimistic layers are fresh: when every
    layer of the cache carries a handle the counter has issued, [onMutate]
    gives a handle that no layer has, a non-empty one, and the hooks keep
    the layers that way. *)
Theorem onMutate_fresh_handle optimisticResponse variables st :
  layers_issued st →
  layers_issued (onMutate optimisticResponse variables st).2 ∧
  (∀ layerId, layers_issued (onError layerId st) ∧
              layers_issued (onSuccess layerId st)) ∧
  (∀ useCache transform response v st',
     mutation useCache transform response st = inr (v, st') →
     layers_issued st') ∧
  ∀ layerId, (onMutate optimisticResponse variables st).1 = Some layerId →
    truthy (VStr layerId) = true ∧
    (layerId ∉ (OptimisticLayer.id <$> optimisticLayers (cache st))) ∧
    (layerId ∈ (OptimisticLayer.id <$>
                  optimisticLayers
                    (cache (onMutate optimisticResponse variables st).2))).
Proof.
  intros Hissued. split_and!.
  - destruct (onMutate_cases optimisticResponse variables st)
      as [->|[response ->]]; [done|].
    unfold layers_issued. simpl. apply Forall_app. split.
    + eapply Forall_impl; [exact Hissued|]. simpl.
      intros layer (n & Hn & Hid). exists n. split; [lia | done].
    + repeat constructor. simpl. eexists. split; [|done]. lia.
  - assert (∀ layerId, layers_issued (removeContextLayer layerId st)) as Hrm.
    { intros [layerId|]; [|done]. unfold removeContextLayer.
      destruct (truthy (VStr layerId)); [|done].
      apply (layers_issued_mono st); [done | done |].
      intros layer. rewrite removeOptimisticLayer_layers. tauto. }
    intros layerId. split; apply Hrm.
  - intros useCache transform response v st'. unfold mutation.
    destruct (GraphQLResponse.errors response) as [[|e es]|];
      destruct (GraphQLResponse.data response) eqn:Hd; try done;
      intros [= _ <-]; destruct useCache; try done;
      by apply (layers_issued_mono st).
  - intros layerId Hl.
    destruct (onMutate optimisticResponse variables st) as [l st'] eqn:Hm.
    simpl in Hl. subst l.
    apply onMutate_Some in Hm as (response & -> & ->). split_and!.
    + apply layerHandle_truthy.
    + by apply layers_issued_fresh.
    + simpl. rewrite fmap_app, elem_of_app. right. simpl. by left.
Qed.

Lemma onMutate_fresh_handle_witness :
  layers_issued idleMutations ∧
  layers_issued
    (onMutate (Some (StaticResponse (userNamed "B"))) VUndef idleMutations).2.
Proof.
  assert (layers_issued idleMutations) as Hissued by constructor.
  split; [exact Hissued|].
  destruct (onMutate_fresh_handle (Some (StaticResponse (userNamed "B")))
              VUndef idleMutations Hissued) as (H & _).
  exact H.
Defined.

(** X23. Rolling back a mutation restores the cache: after [onMutate],
    [onError] with the handle of the context (and [onSuccess] alike)
    leaves the cache as it was before the mutation, records and layers. *)
Theorem onError_rolls_back optimisticResponse variables st :
  layers_issued st →
  let '(layerId, st') := onMutate optimisticResponse variables st in
  cache (onError layerId st') = cache st ∧
  cache (onSuccess layerId st') = cache st.
Proof.
  intros Hissued.
  destruct (onMutate optimisticResponse variables st) as [[layerId|] st']
    eqn:Hm.
  - apply onMutate_Some in Hm as (response & -> & ->).
    unfold onError, onSuccess, removeContextLayer.
    rewrite layerHandle_truthy. simpl.
    by rewrite removeOptimisticLayer_added by by apply layers_issued_fresh.
  - by apply onMutate_None in Hm as ->.
Qed.

Lemma onError_rolls_back_witness :
  layers_issued idleMutations ∧
  cache (onError (Some "optimistic-1")
           (onMutate (Some (StaticResponse (userNamed "B"))) VUndef
              idleMutations).2) = cache idleMutations.
Proof.
  assert (layers_issued idleMutations) as Hissued by constructor.
  split; [exact Hissued|].
  destruct (onError_rolls_back (Some (StaticResponse (userNamed "B")))
              VUndef idleMutations Hissued) as (H & _).
  exact H.
Defined.

(** X24. A mutation that succeeds commits the data of the server and
    nothing of the optimistic response: after [onMutate], the [mutation]
    function and [onSuccess], the cache is the one before the mutation
    with the data of the response written to it. *)
Theorem mutation_success_commits optimisticResponse variables transform
    response st v st2 :
  layers_issued st →
  let '(layerId, st1) := onMutate optimisticResponse variables st in
  mutation true transform response st1 = inr (v, st2) →
  cache (onSuccess layerId st2) =
    write (GraphQLResponse.data response) (cache st) ∧
  v = match transform with
      | Some f => f (GraphQLResponse.data response)
      | None => GraphQLResponse.data response
      end.
Proof.
  intros Hissued.
  assert (∀ st1, mutation true transform response st1 = inr (v, st2) →
            st2 = {| optimisticIdCounter := optimisticIdCounter st1;
                     cache := write (GraphQLResponse.data response)
                                (cache st1) |} ∧
            v = match transform with
                | Some f => f (GraphQLResponse.data response)
                | None => GraphQLResponse.data response
                end) as Hmut.
  { intros st1. unfold mutation.
    destruct (GraphQLResponse.errors response) as [[|e es]|];
      destruct (GraphQLResponse.data response); try done;
      by intros [= <- <-]. }
  destruct (onMutate optimisticResponse variables st) as [[layerId|] st1]
    eqn:Hm; intros [-> ->]%Hmut; (split; [|done]).
  - apply onMutate_Some in Hm as (r & -> & ->).
    unfold onSuccess, removeContextLayer. rewrite layerHandle_truthy. simpl.
    unfold removeOptimisticLayer, write, addOptimisticLayer. simpl. f_equal.
    rewrite filter_app, filter_layers_id by by apply layers_issued_fresh.
    rewrite filter_cons, decide_False by (simpl; naive_solver).
    by rewrite filter_nil, app_nil_r.
  - by apply onMutate_None in Hm as ->.
Qed.

Lemma mutation_success_commits_witness :
  layers_issued idleMutations ∧
  cache (onSuccess (Some "optimistic-1")
           {| optimisticIdCounter := 1;
              cache := write (userNamed "C")
                (addOptimisticLayer "optimistic-1" (userNamed "B")
                   (cache idleMutations)) |}) =
    write (userNamed "C") (cache idleMutations).
Proof.
  assert (layers_issued idleMutations) as Hissued by constructor.
  split; [exact Hissued|].
  destruct (mutation_success_commits (Some (StaticResponse (userNamed "B")))
              VUndef None serverResponse idleMutations (userNamed "C")
              {| optimisticIdCounter := 1;
                 cache := write (userNamed "C")
                   (addOptimisticLayer "optimistic-1" (userNamed "B")
                      (cache idleMutations)) |} Hissued eq_refl) as (H & _).
  exact H.
Defined.

(** X25. Two mutations in flight roll back independently: the handles
    differ, and rolling back the first leaves the layer of the second on
    top of the cache as it was; rolling back both, in either order,
    restores the cache. *)
Theorem overlapping_mutations_independent r1 r2 variables1 variables2 st
    layerId1 layerId2 st1 st2 :
  layers_issued st →
  onMutate r1 variables1 st = (Some layerId1, st1) →
  onMutate r2 variables2 st1 = (Some layerId2, st2) →
  layerId1 ≠ layerId2 ∧
  (∃ response2,
     cache (onError (Some layerId1) st2) =
       addOptimisticLayer layerId2 response2 (cache st)) ∧
  cache (onError (Some layerId2) (onError (Some layerId1) st2)) = cache st ∧
  cache (onError (Some layerId1) (onError (Some layerId2) st2)) = cache st.
Proof.
  intros Hissued Hm1 Hm2.
  pose proof (layers_issued_fresh st Hissued) as Hfresh.
  apply onMutate_Some in Hm1 as (resp1 & -> & ->).
  apply onMutate_Some in Hm2 as (resp2 & -> & ->). simpl in *.
  assert (layerHandle (optimisticIdCounter st + 1) ≠
          layerHandle (optimisticIdCounter st + 1 + 1)) as Hne.
  { intros Heq%layerHandle_inj. lia. }
  assert (layerHandle (optimisticIdCounter st + 1 + 1) ∉
            (OptimisticLayer.id <$> optimisticLayers (cache st))) as Hfresh2.
  { unfold layers_issued in Hissued. rewrite Forall_forall in Hissued.
    intros (layer & Hid & Hin)%list_elem_of_fmap.
    destruct (Hissued _ Hin) as (n & Hle & Hn). rewrite Hn in Hid.
    apply layerHandle_inj in Hid. lia. }
  assert (∀ l1 l2 d1 d2 c,
            l1 ≠ l2 → l1 ∉ (OptimisticLayer.id <$> optimisticLayers c) →
            removeOptimisticLayer l1
              (addOptimisticLayer l2 d2 (addOptimisticLayer l1 d1 c)) =
            addOptimisticLayer l2 d2 c) as Hfirst.
  { intros l1 l2 d1 d2 c Hl Hf.
    unfold removeOptimisticLayer, addOptimisticLayer. simpl. f_equal.
    rewrite !filter_app, filter_layers_id by done.
    rewrite !filter_cons, !filter_nil.
    rewrite decide_False by (simpl; naive_solver).
    rewrite decide_True by (simpl; naive_solver). by rewrite app_nil_r. }
  unfold onError, removeContextLayer. rewrite ?layerHandle_truthy. simpl.
  split_and!; [done | | |].
  - exists resp2. by apply Hfirst.
  - rewrite Hfirst by done. by apply removeOptimisticLayer_added.
  - rewrite removeOptimisticLayer_added.
    + by apply removeOptimisticLayer_added.
    + simpl. rewrite fmap_app, elem_of_app. simpl.
      rewrite list_elem_of_singleton. naive_solver.
Qed.

Lemma overlapping_mutations_independent_witness :
  layers_issued idleMutations ∧
  "optimistic-1" ≠ "optimistic-2".
Proof.
  assert (layers_issued idleMutations) as Hissued by constructor.
  split; [exact Hissued|].
  destruct (overlapping_mutations_independent
              (Some (StaticResponse (userNamed "A")))
              (Some (StaticResponse (userNamed "B"))) VUndef VUndef
              idleMutations _ _ _ _ Hissued eq_refl eq_refl) as (H & _).
  exact H.
Defined.

(** ** More on masking and normalization *)

Lemma NoDup_set_add x (s : list string) : NoDup s → NoDup (set_add x s).
Proof.
  intros Hs. unfold set_add. case_decide; [done|].
  apply NoDup_app. split_and!; [done | | apply NoDup_singleton].
  intros y Hy ->%list_elem_of_singleton. done.
Qed.

Lemma NoDup_extractFields selections :
  ∀ fields, NoDup fields →
    NoDup (extractFieldsFromSelectionSet selections fields).
Proof.
  unfold extractFieldsFromSelectionSet.
  induction selections as [|sel selections IH]; intros fields Hf; [done|].
  simpl. apply IH. destruct sel; [by apply NoDup_set_add | done | done].
Qed.

Lemma NoDup_getFragmentFields fragment : NoDup (getFragmentFields fragment).
Proof.
  unfold getFragmentFields. destruct (findFragmentDef fragment); [|constructor].
  apply NoDup_set_add, NoDup_extractFields. constructor.
Qed.

Lemma foldl_set_add names :
  ∀ acc, foldl (λ s x, set_add x s) acc names =
         acc ++ filter (λ y, y ∉ acc) (firstOccurrences names).
Proof.
  induction names as [|x names IH]; intros acc; simpl.
  - by rewrite filter_nil, app_nil_r.
  - rewrite IH, filter_cons, list_filter_filter. unfold set_add.
    destruct (decide (x ∈ acc)) as [Hx|Hx].
    + rewrite decide_False by (by intros ?). f_equal.
      apply list_filter_iff. intros y. naive_solver.
    + rewrite decide_True by done. rewrite <- app_assoc. simpl. do 2 f_equal.
      apply list_filter_iff. intros y.
      rewrite elem_of_app, list_elem_of_singleton. tauto.
Qed.

Lemma extractFields_outputNames selections :
  ∀ fields,
    extractFieldsFromSelectionSet selections fields =
    foldl (λ s x, set_add x s) fields (outputNames selections).
Proof.
  unfold extractFieldsFromSelectionSet, outputNames.
  induction selections as [|sel selections IH]; intros fields; [done|].
  destruct sel; simpl; apply IH.
Qed.

Lemma getFragmentFields_order fragment selections :
  findFragmentDef fragment = Some selections →
  getFragmentFields fragment =
  firstOccurrences (outputNames selections ++ ["__typename"]).
Proof.
  intros Hdef. unfold getFragmentFields. rewrite Hdef.
  rewrite extractFields_outputNames.
  change (set_add "__typename" ?l) with
    (foldl (λ fields x, set_add x fields) l ["__typename"]).
  rewrite <- foldl_app, foldl_set_add. simpl.
  induction (firstOccurrences _) as [|y l IH]; [done|].
  rewrite filter_cons_True by apply not_elem_of_nil. by rewrite IH.
Qed.

Lemma keys_assign key v (o : obj) :
  key ∉ keys o →
  keys (js_assign key v o) =
  if decide (key = "__proto__") then keys o else keys o ++ [key].
Proof.
  intros Hk. unfold js_assign. case_decide; [done|].
  by rewrite keys_obj_set, decide_False.
Qed.

Lemma maskLoop_keys stack entity E fragmentFields :
  NoDup fragmentFields →
  ∀ res visited res' visited',
    (∀ k, k ∈ fragmentFields → k ∉ keys res) →
    maskLoop stack entity E fragmentFields res visited = Some (res', visited') →
    keys res' =
    keys res ++
    filter (λ k, js_in k entity = true ∧ k ≠ "__proto__") fragmentFields.
Proof.
  induction 1 as [|f rest Hf Hnd IH]; intros res visited res' visited' Hdisj.
  - intros [= <- <-]. by rewrite filter_nil, app_nil_r.
  - rewrite maskLoop_cons, filter_cons.
    destruct (js_lookup f entity) as [v|] eqn:Hv.
    + assert (js_in f entity = true) as Hin by (apply js_in_lookup; eauto).
      destruct (maskField stack v E visited) as [[v' vis']|]; [|done].
      intros Hloop. apply IH in Hloop.
      * rewrite Hloop, keys_assign by (apply Hdisj; left).
        destruct (decide (f = "__proto__")) as [-> |Hne].
        -- rewrite decide_False; [done|]. naive_solver.
        -- rewrite decide_True by done. by rewrite <- app_assoc.
      * intros k Hk. rewrite keys_assign by (apply Hdisj; left).
        assert (k ∉ keys res) by (apply Hdisj; by right).
        case_decide; [done|].
        rewrite elem_of_app, list_elem_of_singleton.
        intros [?| ->]; done.
    + rewrite decide_False.
      * apply IH. intros k Hk. apply Hdisj. by right.
      * intros [Hin%js_in_lookup _]. rewrite Hv in Hin. by destruct Hin.
Qed.

(** X26. For a field set computed from a fragment, the set holds the
    output names of the top-level fields of the fragment and the type
    discriminator.  The masked object has, in the order of the field set
    and each once, the declared names that the record has as a property
    of its own or as an inherited one, the name [__proto__] left out; a
    declared field shows its masked value (the stored value itself unless
    it is a reference or an array), the type discriminator of the record
    among them; and masking returns once the stack has the depth
    [recordBound].  The field set lists the output names in selection
    order, each at its first occurrence, and the type discriminator last
    unless it is selected.  The order of the masked object is that of the
    engine when no declared name is an array index, as no GraphQL name
    is: the names are taken not to start with a digit. *)
Theorem mask_field_order stack entity E fragment selections visited :
  findFragmentDef fragment = Some selections →
  Forall (λ k, starts_with_digit k = false) (getFragmentFields fragment) →
  "__typename" ∈ getFragmentFields fragment ∧
  getFragmentFields fragment =
    firstOccurrences (outputNames selections ++ ["__typename"]) ∧
  (∀ k, k ∈ getFragmentFields fragment ↔
        k = "__typename" ∨
        ∃ alias name, Field alias name ∈ selections ∧ k = default name alias) ∧
  (∀ res,
     denormalizeWithMask stack entity E (getFragmentFields fragment) visited =
       Some (VObj res) →
     keys res =
       filter (λ k, js_in k entity = true ∧ k ≠ "__proto__")
         (getFragmentFields fragment) ∧
     wf_obj res ∧
     (∀ k, is_Some (obj_get k res) ↔
           k ∈ getFragmentFields fragment ∧ js_in k entity = true ∧
           k ≠ "__proto__") ∧
     (∀ k v, k ∈ getFragmentFields fragment → k ≠ "__proto__" →
        js_lookup k entity = Some v →
        ∃ v', maskField stack v E visited = Some (v', visited) ∧
              obj_get k res = Some v') ∧
     (∀ k v, k ∈ getFragmentFields fragment → k ≠ "__proto__" →
        js_lookup k entity = Some v →
        isEntityRef v = false → (∀ items, v ≠ VArr items) →
        obj_get k res = Some v) ∧
     (∀ typename, obj_get "__typename" entity = Some (VStr typename) →
        obj_get "__typename" res = Some (VStr typename))) ∧
  (recordBound E ≤ stack →
   ∃ res, denormalizeWithMask stack entity E (getFragmentFields fragment)
            visited = Some (VObj res)).
Proof.
  intros Hdef _.
  assert (∀ k, k ∈ getFragmentFields fragment ↔
            k = "__typename" ∨
            ∃ alias name, Field alias name ∈ selections ∧
                          k = default name alias) as Hfields.
  { intros k. unfold getFragmentFields. rewrite Hdef, elem_of_set_add.
    rewrite elem_of_extractFields. split; [|naive_solver].
    intros [|[[]%elem_of_nil|]]; auto. }
  split_and!;
    [apply Hfields; by left | by apply getFragmentFields_order | done | |].
  - intros res. unfold denormalizeWithMask.
    destruct (maskLoop stack entity E _ [] visited) as [[res' vis']|] eqn:Hloop;
      [|done].
    intros [= ->].
    pose proof (maskLoop_keys _ _ _ _ (NoDup_getFragmentFields fragment)
                  [] _ _ _ (λ k _, not_elem_of_nil k) Hloop) as Hkeys.
    simpl in Hkeys.
    apply maskLoop_spec in Hloop as (-> & Hsome & Hres).
    assert (∀ k v, k ∈ getFragmentFields fragment → k ≠ "__proto__" →
              js_lookup k entity = Some v →
              ∃ v', maskField stack v E visited = Some (v', visited) ∧
                    obj_get k res = Some v') as Hval.
    { intros k v Hk Hne Hv.
      destruct (Hsome k v Hk Hv) as [[v' vis'] Hm].
      exists v'. pose proof (maskField_restores _ _ _ _ _ _ Hm) as ->.
      split; [done|]. by rewrite Hres, Hv, decide_True, Hm. }
    assert (∀ k v, k ∈ getFragmentFields fragment → k ≠ "__proto__" →
              js_lookup k entity = Some v →
              isEntityRef v = false → (∀ items, v ≠ VArr items) →
              obj_get k res = Some v) as Hplain.
    { intros k v Hk Hne Hv Href Harr.
      destruct (Hval k v Hk Hne Hv) as (v' & Hm & ->). f_equal.
      unfold maskField in Hm. rewrite Href in Hm.
      destruct v; try (by injection Hm as <-). by edestruct Harr. }
    split_and!; [done | | | done | done |].
    + unfold wf_obj. rewrite Hkeys.
      apply NoDup_filter, NoDup_getFragmentFields.
    + intros k. rewrite obj_get_is_Some, Hkeys, list_elem_of_filter. tauto.
    + intros typename Htn. apply Hplain; [|done | |done|done].
      * apply Hfields. by left.
      * by apply js_lookup_own.
  - intros Hstack. unfold denormalizeWithMask.
    destruct (maskLoop_total stack entity E (getFragmentFields fragment) Hstack
                [] visited) as [res ->]. eauto.
Qed.

Lemma mask_field_order_witness :
  findFragmentDef emailFirstFragment =
    Some [Field None "email"; Field (Some "label") "name"; Field None "name";
          FragmentSpread "Other"; Field None "email"] ∧
  Forall (λ k, starts_with_digit k = false)
    (getFragmentFields emailFirstFragment) ∧
  denormalizeWithMask 0 user1 user1Store
    (getFragmentFields emailFirstFragment) ∅ =
    Some (VObj [("email", VStr "e"); ("name", VStr "A");
                ("__typename", VStr "User")]) ∧
  keys [("email", VStr "e"); ("name", VStr "A"); ("__typename", VStr "User")] =
    filter (λ k, js_in k user1 = true ∧ k ≠ "__proto__")
      (getFragmentFields emailFirstFragment).
Proof.
  assert (Forall (λ k, starts_with_digit k = false)
            (getFragmentFields emailFirstFragment)) as Hnames
    by (repeat constructor).
  assert (denormalizeWithMask 0 user1 user1Store
            (getFragmentFields emailFirstFragment) ∅ =
          Some (VObj [("email", VStr "e"); ("name", VStr "A");
                      ("__typename", VStr "User")])) as Hrun
    by (vm_compute; reflexivity).
  split_and!; [reflexivity | exact Hnames | exact Hrun |].
  destruct (mask_field_order 0 user1 user1Store emailFirstFragment _ ∅
              eq_refl Hnames) as (_ & _ & _ & H & _).
  destruct (H _ Hrun) as [Hkeys _]. exact Hkeys.
Defined.

(** X27. A document without a fragment definition declares no field, not
    even the type discriminator: [readFragment] with such a document
    returns the empty object for every entity of the composed view, at any
    stack depth. *)
Theorem readFragment_without_definition stack arg fragment c entityId entity :
  findFragmentDef fragment = None →
  resolveId arg c = Some entityId →
  getEntities c !! entityId = Some entity →
  getFragmentFields fragment = [] ∧
  readFragment stack arg (Some fragment) c = Some (VObj []).
Proof.
  intros Hdef Hid He.
  assert (getFragmentFields fragment = []) as Hfields.
  { unfold getFragmentFields. by rewrite Hdef. }
  split; [done|]. unfold readFragment. by rewrite Hid, He, Hfields.
Qed.

Lemma readFragment_without_definition_witness :
  findFragmentDef [OperationDefinition [Field None "name"]] = None ∧
  readFragment 0 (IdString "User:1")
    (Some [OperationDefinition [Field None "name"]])
    (write userNameA (emptyCache ∅)) = Some (VObj []).
Proof.
  split; [reflexivity|].
  apply (readFragment_without_definition 0 (IdString "User:1")
           [OperationDefinition [Field None "name"]]
           (write userNameA (emptyCache ∅)) "User:1"
           [("__typename", VStr "User"); ("id", VStr "1"); ("name", VStr "A")]);
    reflexivity.
Defined.

Lemma maskField_ref stack entityId E visited :
  maskField stack (toEntityRef entityId) E visited =
  match E !! entityId with
  | Some refEntity =>
      if decide (entityId ∈ visited) then Some (toEntityRef entityId, visited)
      else
        match
          denormalize stack (VObj refEntity) E ({[entityId]} ∪ visited)
        with
        | Some (denormalized, _) =>
            Some (denormalized, ({[entityId]} ∪ visited) ∖ {[entityId]})
        | None => None
        end
  | None => Some (toEntityRef entityId, visited)
  end.
Proof. reflexivity. Qed.

(** X28. Masking is shallow: a declared field that holds a reference to
    a stored entity shows what [denormalize] gives for the reference,
    the whole entity; a reference to an entity that is not stored stays a
    raw reference, where [denormalize] gives [undefined]. *)
Theorem maskField_reference stack entityId E visited :
  match E !! entityId with
  | Some _ =>
      maskField stack (toEntityRef entityId) E visited =
      denormalize (S stack) (toEntityRef entityId) E visited
  | None =>
      maskField stack (toEntityRef entityId) E visited =
        Some (toEntityRef entityId, visited) ∧
      denormalize (S stack) (toEntityRef entityId) E visited =
        Some (if decide (entityId ∈ visited) then toEntityRef entityId
              else VUndef, visited)
  end.
Proof.
  rewrite denormalize_ref, maskField_ref.
  destruct (E !! entityId) as [entity|] eqn:He.
  - case_decide; [done|].
    destruct (denormalize stack (VObj entity) E _) as [[d vis']|] eqn:Hd;
      [|done].
    by apply denormalize_restores_visited in Hd as ->.
  - split; [done|]. by case_decide.
Qed.

(** X29. Normalization is idempotent on payloads without properties
    named [__proto__]: with key functions that do not look inside nested
    objects, normalizing the result of a normalization returns it as it
    is and extracts no record. *)
Theorem normalize_idempotent data tp :
  key_functions_shallow tp →
  no_proto_keys data = true →
  normalize (result (normalize data tp)) tp =
    {| result := result (normalize data tp); norm_entities := ∅ |}.
Proof.
  intros Hshallow Hproto.
  assert (no_raw_entity tp (result (normalize data tp)) = true) as Hclean.
  { unfold normalize. destruct (normalizeValue tp data ∅) as [r E] eqn:Hn.
    simpl. eapply norm_rel_no_raw_entity; [done | done |].
    by eapply normalizeValue_shape. }
  destruct (normalize_no_proto data tp Hproto) as [Hres _].
  unfold normalize at 1. by rewrite normalizeValue_no_entity.
Qed.

Lemma normalize_idempotent_witness :
  key_functions_shallow ∅ ∧
  no_proto_keys diamondPayload = true ∧
  normalize (result (normalize diamondPayload ∅)) ∅ =
    {| result := result (normalize diamondPayload ∅); norm_entities := ∅ |}.
Proof.
  split_and!; [apply key_functions_shallow_empty | reflexivity |].
  apply normalize_idempotent; [apply key_functions_shallow_empty|].
  reflexivity.
Defined.
